(** * memkv: an in-memory key/value store (store.go)

    A shallow embedding of the package [memkv] and the properties of its
    nine operations.  Go strings are byte sequences: they are modelled as
    [string] (a list of 8-bit [ascii] characters).  The map [s.m] is a
    finite map [gmap string KVPair]; the [for ... range] loops over it are
    modelled over [map_to_list], and the theorems about their results are
    proved for every enumeration order of the entries as well
    (Go leaves the iteration order of a map unspecified). *)

From Stdlib Require Import Ascii String ZArith Lia.
From stdpp Require Import gmap strings list fin_maps sorting.

Local Open Scope string_scope.

(** ** Records and errors *)

(** Modelled from the spec: the declaration of the type [KVPair] is not in
    store.go.  The spec's data model gives the record
    [{ key: string, value: string }]; store.go builds it positionally as
    [KVPair{key, value}] and reads the fields [Key] and [Value]. *)
Record KVPair : Type := mkKVPair { Key : string; Value : string }.

#[global] Instance KVPair_eq_dec : EqDecision KVPair.
Proof. solve_decision. Defined.

(** The zero value [KVPair{}]. *)
Definition KVPair_zero : KVPair := mkKVPair "" "".

(** [KVPairs] is a slice of [KVPair]. *)
Abbreviation KVPairs := (list KVPair).

(** The error values a call can return: the package's [ErrNotExist] and
    [ErrNoMatch], and [filepath.ErrBadPattern] of the matcher. *)
Inductive error : Type :=
  | ErrNotExist
  | ErrNoMatch
  | ErrBadPattern.

#[global] Instance error_eq_dec : EqDecision error.
Proof. solve_decision. Defined.

(** ** The store *)

(** [type Store struct { sync.RWMutex; m map[string]KVPair }].  The
    sequential state of a store made by [New] is its map; the lock is
    modelled separately, in the module [Conc]. *)
Record Store : Type := mkStore { m : gmap string KVPair }.

Definition New : Store := mkStore ∅.

Definition Set_ (s : Store) (key value : string) : Store :=
  mkStore (<[key := mkKVPair key value]> (m s)).

Definition Del (s : Store) (key : string) : Store :=
  mkStore (delete key (m s)).

(** [kv, ok := s.m[key]]: a missing key reads as the zero value. *)
Definition Get (s : Store) (key : string) : KVPair * option error :=
  match m s !! key with
  | Some kv => (kv, None)
  | None => (KVPair_zero, Some ErrNotExist)
  end.

Definition GetValue (s : Store) (key : string) : string * option error :=
  match Get s key with
  | (kv, None) => (Value kv, None)
  | (_, Some err) => ("", Some err)
  end.

(** ** Strings as byte sequences *)

(** [len(s) == 0] *)
Definition is_empty (s : string) : bool :=
  match s with "" => true | String _ _ => false end.

(** [s[n:]] for [n <= len(s)] (the callers below never exceed it). *)
Fixpoint drop_bytes (n : nat) (s : string) : string :=
  match n, s with
  | S n', String _ s' => drop_bytes n' s'
  | _, _ => s
  end.

(** [s[:n]] for [n <= len(s)]. *)
Fixpoint take_bytes (n : nat) (s : string) : string :=
  match n, s with
  | S n', String c s' => String c (take_bytes n' s')
  | _, _ => ""
  end.

(** [s[1:]]: Go panics with "slice bounds out of range" on the empty
    string; [None] is that panic. *)
Definition slice_from_1 (s : string) : option string :=
  match s with
  | "" => None
  | String _ s' => Some s'
  end.

(** [strings.HasPrefix(s, prefix)] *)
Fixpoint HasPrefix (s prefix : string) : bool :=
  match prefix, s with
  | "", _ => true
  | String p prefix', String c s' => Ascii.eqb c p && HasPrefix s' prefix'
  | String _ _, "" => false
  end.

(** [strings.TrimPrefix(s, prefix)]: [s[len(prefix):]] when [s] has the
    prefix, [s] itself otherwise. *)
Definition TrimPrefix (s prefix : string) : string :=
  if HasPrefix s prefix then drop_bytes (String.length prefix) s else s.

(** [len(s) > 0 && s[0] == c] *)
Definition starts_with (c : ascii) (s : string) : bool :=
  match s with
  | "" => false
  | String c0 _ => Ascii.eqb c0 c
  end.

(** [strings.Contains(s, "/")] *)
Fixpoint Contains_slash (s : string) : bool :=
  match s with
  | "" => false
  | String c s' => Ascii.eqb c "/" || Contains_slash s'
  end.

(** The cut of [s] at its first ["/"]: the bytes before it and the bytes
    after it, or [None] when [s] has no ["/"] ([strings.Index] is negative). *)
Fixpoint cut_slash (s : string) : option (string * string) :=
  match s with
  | "" => None
  | String c s' =>
      if Ascii.eqb c "/" then Some ("", s')
      else match cut_slash s' with
           | Some (a, b) => Some (String c a, b)
           | None => None
           end
  end.

(** [strings.SplitN(s, "/", 2)]: at most two substrings; the slice has
    one element (all of [s]) when [s] has no ["/"], also for [s = ""]. *)
Definition SplitN_slash_2 (s : string) : list string :=
  match cut_slash s with
  | Some (a, b) => [a; b]
  | None => [s]
  end.

(** [items[0]] of a slice made by [SplitN_slash_2], which is never empty. *)
Definition first_item (items : list string) : string :=
  match items with
  | a :: _ => a
  | [] => ""
  end.

(** ** Sorting *)

(** Modelled from the spec: the methods [Len], [Less], [Swap] of [KVPairs]
    that [sort.Sort(ks)] calls are not in store.go; the spec has the
    records "sorted by key in ascending lexicographic (byte-wise) order",
    which is Go's [<] on the strings [ks[i].Key] and [ks[j].Key]. *)
Definition kv_le (a b : KVPair) : Prop := String.le (Key a) (Key b).

#[global] Instance kv_le_dec : RelDecision kv_le.
Proof. intros a b. unfold kv_le. apply _. Defined.

(** [sort.Sort(ks)] and [sort.Strings(vs)].  Go promises a sorted
    permutation and no stability; the theorems below use of the sort only
    that its result is sorted and a permutation of its input. *)
Definition sort_KVPairs (ks : KVPairs) : KVPairs := merge_sort kv_le ks.

Definition sort_Strings (vs : list string) : list string :=
  merge_sort String.le vs.

(** ** The matcher: [filepath.Match] of Go's standard library

    [GetAll] calls [filepath.Match(pattern, kv.Key)].  The matcher is the
    standard library's (path/filepath/match.go, Unix build, as of Go 1.16
    and later, where a malformed pattern is reported even after the match
    has failed); its algorithm is embedded here function by function:
    [DecodeRuneInString], [getEsc], [matchChunk], [scanChunk], [Match]. *)

Definition byte_val (c : ascii) : Z := Z.of_N (N_of_ascii c).

Definition RuneError : Z := 65533.

(** Continuation byte in the range [lo..hi]. *)
Definition in_range (lo hi : Z) (c : ascii) : bool :=
  (lo <=? byte_val c)%Z && (byte_val c <=? hi)%Z.

(** The low six bits of a continuation byte ([maskx = 0x3F]). *)
Definition cont_bits (c : ascii) : Z := Z.land (byte_val c) 63.

(** The table [first] of unicode/utf8 read as a case split: for a leading
    byte, the length of the sequence and the range accepted for the second
    byte; [None] for a byte that cannot lead a sequence. *)
Definition utf8_first (b0 : Z) : option (nat * Z * Z) :=
  if (b0 <? 194)%Z then None
  else if (b0 <=? 223)%Z then Some (2, 128%Z, 191%Z)
  else if (b0 =? 224)%Z then Some (3, 160%Z, 191%Z)
  else if (b0 =? 237)%Z then Some (3, 128%Z, 159%Z)
  else if (b0 <=? 239)%Z then Some (3, 128%Z, 191%Z)
  else if (b0 =? 240)%Z then Some (4, 144%Z, 191%Z)
  else if (b0 <=? 243)%Z then Some (4, 128%Z, 191%Z)
  else if (b0 =? 244)%Z then Some (4, 128%Z, 143%Z)
  else None.

(** [utf8.DecodeRuneInString]: the rune and the number of bytes read;
    [(RuneError, 0)] on the empty string and [(RuneError, 1)] on an invalid
    or truncated sequence. *)
Definition DecodeRuneInString (s : string) : Z * nat :=
  match s with
  | "" => (RuneError, 0)
  | String c0 s1 =>
      let b0 := byte_val c0 in
      if (b0 <? 128)%Z then (b0, 1)
      else match utf8_first b0 with
      | None => (RuneError, 1)
      | Some (sz, lo, hi) =>
          match s1 with
          | "" => (RuneError, 1)
          | String c1 s2 =>
              if negb (in_range lo hi c1) then (RuneError, 1)
              else if (sz <=? 2)%nat then
                (Z.lor (Z.shiftl (Z.land b0 31) 6) (cont_bits c1), 2)
              else match s2 with
              | "" => (RuneError, 1)
              | String c2 s3 =>
                  if negb (in_range 128 191 c2) then (RuneError, 1)
                  else if (sz <=? 3)%nat then
                    (Z.lor (Z.lor (Z.shiftl (Z.land b0 15) 12)
                                  (Z.shiftl (cont_bits c1) 6))
                           (cont_bits c2), 3)
                  else match s3 with
                  | "" => (RuneError, 1)
                  | String c3 _ =>
                      if negb (in_range 128 191 c3) then (RuneError, 1)
                      else
                        (Z.lor (Z.lor (Z.lor (Z.shiftl (Z.land b0 7) 18)
                                             (Z.shiftl (cont_bits c1) 12))
                                      (Z.shiftl (cont_bits c2) 6))
                               (cont_bits c3), 4)
                  end
              end
          end
      end
  end.

(** The result of a fallible helper: a value or the matcher's error. *)
Inductive res (A : Type) : Type :=
  | Ok (a : A)
  | Err (e : error).
Arguments Ok {A} a.
Arguments Err {A} e.

(** [getEsc]: a possibly escaped character of a character class and the
    rest of the chunk.  An error if the chunk is empty or starts with [-]
    or [], if a backslash ends it, if the rune is invalid, or if nothing
    follows the character (the class is not closed). *)
Definition getEsc (chunk : string) : res (Z * string) :=
  match chunk with
  | "" => Err ErrBadPattern
  | String c chunk' =>
      if Ascii.eqb c "-" || Ascii.eqb c "]" then Err ErrBadPattern
      else
        let unesc := if Ascii.eqb c "\" then chunk' else chunk in
        if is_empty unesc then Err ErrBadPattern
        else
          let '(r, n) := DecodeRuneInString unesc in
          let nchunk := drop_bytes n unesc in
          if (r =? RuneError)%Z && (n =? 1)%nat then Err ErrBadPattern
          else if is_empty nchunk then Err ErrBadPattern
          else Ok (r, nchunk)
  end.

(** The loop "parse all ranges" of a character class in [matchChunk]:
    [r] is the rune under test, [nrange] the number of ranges read so far
    and [mtch] whether one of them held [r].  It ends at a []] that follows
    at least one range and returns the rest of the chunk.  Every turn reads
    at least one byte of the chunk, so [fuel] above its length is never
    used up ([None]). *)
Fixpoint class_ranges (fuel : nat) (r : Z) (chunk : string) (nrange : nat)
    (mtch : bool) : option (res (bool * string)) :=
  match fuel with
  | O => None
  | S fuel' =>
      if starts_with "]" chunk && (0 <? nrange)%nat then
        Some (Ok (mtch, drop_bytes 1 chunk))
      else
        match getEsc chunk with
        | Err e => Some (Err e)
        | Ok (lo, chunk1) =>
            if starts_with "-" chunk1 then
              match getEsc (drop_bytes 1 chunk1) with
              | Err e => Some (Err e)
              | Ok (hi, chunk2) =>
                  class_ranges fuel' r chunk2 (S nrange)
                    (mtch || ((lo <=? r)%Z && (r <=? hi)%Z))
              end
            else
              class_ranges fuel' r chunk1 (S nrange)
                (mtch || ((lo <=? r)%Z && (r <=? lo)%Z))
        end
  end.

(** [matchChunk(chunk, s)]: does [chunk] (literals, classes and [?]) match
    the beginning of [s]?  The triple is Go's [(rest, ok, err)].  [failed]
    records that the match has failed; the loop then goes on through the
    chunk to check that it is well formed, without reading [s]. *)
Fixpoint matchChunk_loop (fuel : nat) (failed : bool) (chunk s : string)
    : option (string * bool * option error) :=
  match fuel with
  | O => None
  | S fuel' =>
      match chunk with
      | "" => Some (if failed then ("", false, None) else (s, true, None))
      | String c chunk' =>
          let failed := failed || is_empty s in
          let literal (c : ascii) (chunk' : string) :=
            match s with
            | String c0 s' =>
                if failed then matchChunk_loop fuel' failed chunk' s
                else matchChunk_loop fuel' (negb (Ascii.eqb c c0)) chunk' s'
            | "" => matchChunk_loop fuel' failed chunk' s
            end in
          if Ascii.eqb c "[" then
            let '(r, s') :=
              if failed then (0%Z, s)
              else let '(r, n) := DecodeRuneInString s in (r, drop_bytes n s) in
            let '(negated, chunk1) :=
              if starts_with "^" chunk' then (true, drop_bytes 1 chunk')
              else (false, chunk') in
            match class_ranges (S (String.length chunk1)) r chunk1 0 false with
            | None => None
            | Some (Err e) => Some ("", false, Some e)
            | Some (Ok (mtch, chunk2)) =>
                matchChunk_loop fuel' (failed || Bool.eqb mtch negated) chunk2 s'
            end
          else if Ascii.eqb c "?" then
            match s with
            | String c0 _ =>
                if failed then matchChunk_loop fuel' failed chunk' s
                else
                  let '(_, n) := DecodeRuneInString s in
                  matchChunk_loop fuel' (Ascii.eqb c0 "/") chunk' (drop_bytes n s)
            | "" => matchChunk_loop fuel' failed chunk' s
            end
          else if Ascii.eqb c "\" then
            match chunk' with
            | "" => Some ("", false, Some ErrBadPattern)
            | String c1 chunk1 => literal c1 chunk1
            end
          else literal c chunk'
      end
  end.

Definition matchChunk_fuel (chunk : string) : nat := S (String.length chunk).

(** [matchChunk]; the default is never reached (lemma [matchChunk_total]). *)
Definition matchChunk (chunk s : string) : string * bool * option error :=
  default ("", false, None)
    (matchChunk_loop (matchChunk_fuel chunk) false chunk s).

(** [scanChunk]: the leading stars are dropped ([star] says whether there
    was one), then the chunk runs up to the next [*] outside a character
    class. *)
Fixpoint skip_stars (pattern : string) : bool * string :=
  match pattern with
  | "" => (false, pattern)
  | String c pattern' =>
      if Ascii.eqb c "*" then (true, snd (skip_stars pattern'))
      else (false, pattern)
  end.

Fixpoint scan (inrange : bool) (pattern : string) : string * string :=
  match pattern with
  | "" => ("", "")
  | String c pattern' =>
      if Ascii.eqb c "\" then
        match pattern' with
        | "" => (String c "", "")
        | String c1 pattern2 =>
            let '(chunk, rest) := scan inrange pattern2 in
            (String c (String c1 chunk), rest)
        end
      else if Ascii.eqb c "[" then
        let '(chunk, rest) := scan true pattern' in (String c chunk, rest)
      else if Ascii.eqb c "]" then
        let '(chunk, rest) := scan false pattern' in (String c chunk, rest)
      else if Ascii.eqb c "*" && negb inrange then ("", pattern)
      else
        let '(chunk, rest) := scan inrange pattern' in (String c chunk, rest)
  end.

Definition scanChunk (pattern : string) : bool * string * string :=
  let '(star, pattern') := skip_stars pattern in
  let '(chunk, rest) := scan false pattern' in
  (star, chunk, rest).

(** The outcome of the loop over [i] that [Match] runs after a star: the
    chunk matched behind [i+1] skipped bytes and the loop goes on with the
    rest [t] of the name ([continue Pattern]), the chunk is malformed, or
    no position matched. *)
Inductive star_outcome : Type :=
  | StarHit (t : string)
  | StarErr (e : error)
  | StarMiss.

(** [for i := 0; i < len(name) && name[i] != Separator; i++]: the chunk is
    tried on [name[i+1:]]; a match of the last chunk that leaves bytes of
    the name unread is passed over. *)
Fixpoint star_loop (chunk : string) (last : bool) (name : string)
    : star_outcome :=
  match name with
  | "" => StarMiss
  | String c name' =>
      if Ascii.eqb c "/" then StarMiss
      else
        let '(t, ok, err) := matchChunk chunk name' in
        if ok then
          if last && negb (is_empty t) then star_loop chunk last name'
          else StarHit t
        else
          match err with
          | Some e => StarErr e
          | None => star_loop chunk last name'
          end
  end.

(** The check of the rest of the pattern that [Match] makes before it
    returns [false] with no error. *)
Fixpoint check_rest (fuel : nat) (pattern : string) : option (option error) :=
  match pattern with
  | "" => Some None
  | String _ _ =>
      match fuel with
      | O => None
      | S fuel' =>
          let '(_, chunk, rest) := scanChunk pattern in
          match matchChunk chunk "" with
          | (_, _, Some e) => Some (Some e)
          | (_, _, None) => check_rest fuel' rest
          end
      end
  end.

(** The loop labelled [Pattern] of [Match].  Each turn takes a chunk off
    the pattern, so [fuel] of the pattern's length is enough. *)
Fixpoint Match_loop (fuel : nat) (pattern name : string)
    : option (bool * option error) :=
  match pattern with
  | "" => Some (is_empty name, None)
  | String _ _ =>
      match fuel with
      | O => None
      | S fuel' =>
          let '(star, chunk, rest) := scanChunk pattern in
          if star && is_empty chunk then
            Some (negb (Contains_slash name), None)
          else
            let '(t, ok, err) := matchChunk chunk name in
            if ok && (is_empty t || negb (is_empty rest)) then
              Match_loop fuel' rest t
            else
              match err with
              | Some e => Some (false, Some e)
              | None =>
                  match (if star then star_loop chunk (is_empty rest) name
                         else StarMiss) with
                  | StarHit t' => Match_loop fuel' rest t'
                  | StarErr e => Some (false, Some e)
                  | StarMiss =>
                      match check_rest fuel' rest with
                      | Some err' => Some (false, err')
                      | None => None
                      end
                  end
              end
      end
  end.

(** [filepath.Match(pattern, name)]: [(matched, err)]; the default is never
    reached (lemma [Match_total]). *)
Definition Match (pattern name : string) : bool * option error :=
  default (false, None) (Match_loop (String.length pattern) pattern name).

(** ** The queries of the store *)

(** The entries in the order the [range] loops visit them.  Go does not
    fix that order; [range_order] is one enumeration, and the results
    below are shown not to depend on which one is taken. *)
Definition range_order (s : Store) : list KVPair :=
  (map_to_list (m s)).*2.

(** The loop of [GetAll] over the entries [kvs]: the matching records in
    visiting order, or the matcher's error at the first entry where it
    fails. *)
Fixpoint GetAll_scan (pattern : string) (kvs : list KVPair) (ks : KVPairs)
    : res KVPairs :=
  match kvs with
  | [] => Ok ks
  | kv :: kvs' =>
      match Match pattern (Key kv) with
      | (_, Some err) => Err err
      | (true, None) => GetAll_scan pattern kvs' (ks ++ [kv])
      | (false, None) => GetAll_scan pattern kvs' ks
      end
  end.

(** [GetAll] on a given visiting order; [None] is Go's [nil] slice. *)
Definition GetAll_on (kvs : list KVPair) (pattern : string)
    : option KVPairs * option error :=
  match GetAll_scan pattern kvs [] with
  | Err err => (None, Some err)
  | Ok [] => (None, Some ErrNoMatch)
  | Ok ks => (Some (sort_KVPairs ks), None)
  end.

Definition GetAll (s : Store) (pattern : string)
    : option KVPairs * option error :=
  GetAll_on (range_order s) pattern.

(** [GetAllValues]: [vs] is made by [make([]string, 0)], so what is
    returned is never Go's [nil] slice ([None]), also on failure, where it
    is the empty [vs]. *)
Definition GetAllValues_on (kvs : list KVPair) (pattern : string)
    : option (list string) * option error :=
  match GetAll_on kvs pattern with
  | (_, Some err) => (Some [], Some err)
  | (ks, None) => (Some (Value <$> default [] ks), None)
  end.

Definition GetAllValues (s : Store) (pattern : string)
    : option (list string) * option error :=
  GetAllValues_on (range_order s) pattern.

(** What a call of [List] or [ListDir] does: it returns its slice, or the
    run-time panic "slice bounds out of range" of [strippedKey[1:]] ends
    it. *)
Inductive outcome (A : Type) : Type :=
  | Returns (a : A)
  | Panics.
Arguments Returns {A} a.
Arguments Panics {A}.

(** The first loop of [List]; [seen] is the map [m] of type
    [map[string]bool], whose values are all [true]: a set of strings. *)
Fixpoint List_scan (path : string) (kvs : list KVPair) (seen : gset string)
    : outcome (gset string) :=
  match kvs with
  | [] => Returns seen
  | kv :: kvs' =>
      if HasPrefix (Key kv) path then
        let strippedKey := TrimPrefix (Key kv) path in
        match slice_from_1 strippedKey with
        | None => Panics
        | Some rest =>
            List_scan path kvs' ({[ first_item (SplitN_slash_2 rest) ]} ∪ seen)
        end
      else List_scan path kvs' seen
  end.

(** The second loop and the sort: the keys of [m], sorted. *)
Definition sorted_keys (seen : gset string) : list string :=
  sort_Strings (elements seen).

Definition List_on (kvs : list KVPair) (path : string) : outcome (list string) :=
  match List_scan path kvs ∅ with
  | Returns seen => Returns (sorted_keys seen)
  | Panics => Panics
  end.

Definition List (s : Store) (path : string) : outcome (list string) :=
  List_on (range_order s) path.

(** The first loop of [ListDir]: as in [List], but an entry whose
    [items] has fewer than two elements is passed over. *)
Fixpoint ListDir_scan (path : string) (kvs : list KVPair) (seen : gset string)
    : outcome (gset string) :=
  match kvs with
  | [] => Returns seen
  | kv :: kvs' =>
      if HasPrefix (Key kv) path then
        let strippedKey := TrimPrefix (Key kv) path in
        match slice_from_1 strippedKey with
        | None => Panics
        | Some rest =>
            let items := SplitN_slash_2 rest in
            if (length items <? 2)%nat then ListDir_scan path kvs' seen
            else ListDir_scan path kvs' ({[ first_item items ]} ∪ seen)
        end
      else ListDir_scan path kvs' seen
  end.

Definition ListDir_on (kvs : list KVPair) (path : string)
    : outcome (list string) :=
  match ListDir_scan path kvs ∅ with
  | Returns seen => Returns (sorted_keys seen)
  | Panics => Panics
  end.

Definition ListDir (s : Store) (path : string) : outcome (list string) :=
  ListDir_on (range_order s) path.

(** ** Operations as data, and the invariant of the map *)

(** The nine entry points: [New] and the eight methods.  [exec] is the
    store a method call leaves behind; only [Set] and [Del] write. *)
Inductive op : Type :=
  | OpSet (key value : string)
  | OpDel (key : string)
  | OpGet (key : string)
  | OpGetValue (key : string)
  | OpGetAll (pattern : string)
  | OpGetAllValues (pattern : string)
  | OpList (path : string)
  | OpListDir (path : string).

Definition exec (o : op) (s : Store) : Store :=
  match o with
  | OpSet key value => Set_ s key value
  | OpDel key => Del s key
  | OpGet _ | OpGetValue _ | OpGetAll _ | OpGetAllValues _
  | OpList _ | OpListDir _ => s
  end.

Definition run (ops : list op) (s : Store) : Store :=
  foldl (fun s o => exec o s) s ops.

(** [map[k].key == k] for every entry. *)
Definition keys_consistent (s : Store) : Prop :=
  forall k kv, m s !! k = Some kv -> Key kv = k.

(** ** The results as the specification words them *)

(** [GetAll]: the records "whose key matches the pattern". *)
Definition matches (pattern : string) (kv : KVPair) : Prop :=
  Match pattern (Key kv) = (true, None).

#[global] Instance matches_dec pattern kv : Decision (matches pattern kv).
Proof. unfold matches. apply _. Defined.

(** The matcher reports the pattern malformed on the key of [kv]. *)
Definition bad_on (pattern : string) (kv : KVPair) : Prop :=
  snd (Match pattern (Key kv)) <> None.

#[global] Instance bad_on_dec pattern kv : Decision (bad_on pattern kv).
Proof. unfold bad_on. apply _. Defined.

(** The number of separators in a string, and the patterns made of
    literals, [*] and [?] only (no character class, no escape). *)
Fixpoint count_slash (s : string) : nat :=
  match s with
  | "" => 0
  | String c s' => (if Ascii.eqb c "/" then 1 else 0) + count_slash s'
  end.

Fixpoint plain_pattern (pattern : string) : bool :=
  match pattern with
  | "" => true
  | String c pattern' =>
      negb (Ascii.eqb c "[") && negb (Ascii.eqb c "\") && plain_pattern pattern'
  end.

(** [List]: "keep everything before the first remaining /, or the whole
    remainder if no further / exists". *)
Fixpoint before_slash (s : string) : string :=
  match s with
  | "" => ""
  | String c s' => if Ascii.eqb c "/" then "" else String c (before_slash s')
  end.

(** "strip the path prefix, then skip exactly one character of the
    remainder": what is left of a key that has [path] as a prefix. *)
Definition remainder (path key : string) : string :=
  drop_bytes 1 (drop_bytes (String.length path) key).

Definition first_segment (path key : string) : string :=
  before_slash (remainder path key).

(** The keys "having path as a literal string prefix". *)
Definition under (path : string) (kv : KVPair) : Prop :=
  HasPrefix (Key kv) path = true.

#[global] Instance under_dec path kv : Decision (under path kv).
Proof. unfold under. apply _. Defined.

(** [ListDir]: the entries whose remainder "contains a further /". *)
Definition has_child (path : string) (kv : KVPair) : Prop :=
  Contains_slash (remainder path (Key kv)) = true.

#[global] Instance has_child_dec path kv : Decision (has_child path kv).
Proof. unfold has_child. apply _. Defined.

(** The distinct first segments, sorted. *)
Definition segments_of (path : string) (kvs : list KVPair) : list string :=
  sort_Strings
    (remove_dups ((fun kv => first_segment path (Key kv)) <$> kvs)).

Definition List_spec (s : Store) (path : string) : list string :=
  segments_of path (filter (under path) (range_order s)).

Definition ListDir_spec (s : Store) (path : string) : list string :=
  segments_of path
    (filter (has_child path) (filter (under path) (range_order s))).

(** The entry that makes [List] and [ListDir] panic: a key equal to the
    path, whose stripped key is empty. *)
Definition key_is_path (path : string) (kv : KVPair) : Prop :=
  Key kv = path.

#[global] Instance key_is_path_dec path kv : Decision (key_is_path path kv).
Proof. unfold key_is_path. apply _. Defined.

(** ** Histories and kinds of patterns *)

(** The operation writes the entry of [key]: it is [Set(key, _)] or
    [Del(key)]. *)
Definition writes_key (key : string) (o : op) : bool :=
  match o with
  | OpSet k _ | OpDel k => String.eqb k key
  | OpGet _ | OpGetValue _ | OpGetAll _ | OpGetAllValues _
  | OpList _ | OpListDir _ => false
  end.

(** A pattern the matcher reads byte for byte: none of the bytes [*], [?],
    [[] and [\] occurs in it. *)
Fixpoint literal_pattern (pattern : string) : bool :=
  match pattern with
  | "" => true
  | String c pattern' =>
      negb (Ascii.eqb c "*") && negb (Ascii.eqb c "?") &&
      negb (Ascii.eqb c "[") && negb (Ascii.eqb c "\") &&
      literal_pattern pattern'
  end.



(** ** Concurrent calls: the lock and the receiver

    Every method of store.go has the receiver [(s Store)]: a call works on
    a copy of the caller's struct.  The copy holds the same map (a Go map
    value is a reference) and a mutex of its own, copied from the
    caller's.  The model is an interleaving semantics of the calls, one
    step per statement of a method body. *)
Module Conc.

(** A [sync.RWMutex]: held by a writer, or by a number of readers. *)
Record RWMutex : Type := mkRWMutex { writer : bool; readers : nat }.

Definition unlocked : RWMutex := mkRWMutex false 0.

(** How a method receives the store: store.go declares [(s Store)]
    ([ByValue]); [(s *Store)] would be [ByPointer]. *)
Inductive receiver : Type := ByValue | ByPointer.

(** The receiver of the methods as store.go declares them. *)
Definition declared : receiver := ByValue.

(** The calls considered: the writers [Set], [Del] and the readers [Get],
    [GetAll]. *)
Inductive call : Type :=
  | CallSet (key value : string)
  | CallDel (key : string)
  | CallGet (key : string)
  | CallGetAll (pattern : string).

Definition writes (c : call) : bool :=
  match c with
  | CallSet _ _ | CallDel _ => true
  | CallGet _ | CallGetAll _ => false
  end.

(** The effect of the call's access on the map. *)
Definition access (c : call) (s : Store) : Store :=
  match c with
  | CallSet key value => Set_ s key value
  | CallDel key => Del s key
  | CallGet _ | CallGetAll _ => s
  end.

(** Where a call stands; [l] is the address of the mutex of its
    receiver. *)
Inductive point : Type :=
  | Calling
  | AtLock (l : nat)
  | AtMap (l : nat)
  | AtUnlock (l : nat)
  | Returned.

(** The mutexes in memory (address 0 is the mutex of the caller's
    [Store]), the map every copy of the store shares, and the calls in
    flight. *)
Record state : Type := mkState {
  locks : list RWMutex;
  shared : Store;
  calls : list (call * point)
}.

Definition init (s : Store) (cs : list call) : state :=
  mkState [unlocked] s ((fun c => (c, Calling)) <$> cs).

(** One statement of one call. *)
Inductive step (r : receiver) : state -> state -> Prop :=
  | step_copy st i c mu :
      r = ByValue ->
      calls st !! i = Some (c, Calling) ->
      locks st !! 0 = Some mu ->
      step r st (mkState (locks st ++ [mu]) (shared st)
                   (<[i := (c, AtLock (length (locks st)))]> (calls st)))
  | step_share st i c :
      r = ByPointer ->
      calls st !! i = Some (c, Calling) ->
      step r st (mkState (locks st) (shared st)
                   (<[i := (c, AtLock 0)]> (calls st)))
  | step_Lock st i c l :
      calls st !! i = Some (c, AtLock l) ->
      writes c = true ->
      locks st !! l = Some (mkRWMutex false 0) ->
      step r st (mkState (<[l := mkRWMutex true 0]> (locks st)) (shared st)
                   (<[i := (c, AtMap l)]> (calls st)))
  | step_RLock st i c l n :
      calls st !! i = Some (c, AtLock l) ->
      writes c = false ->
      locks st !! l = Some (mkRWMutex false n) ->
      step r st (mkState (<[l := mkRWMutex false (S n)]> (locks st)) (shared st)
                   (<[i := (c, AtMap l)]> (calls st)))
  | step_map st i c l :
      calls st !! i = Some (c, AtMap l) ->
      step r st (mkState (locks st) (access c (shared st))
                   (<[i := (c, AtUnlock l)]> (calls st)))
  | step_Unlock st i c l :
      calls st !! i = Some (c, AtUnlock l) ->
      writes c = true ->
      step r st (mkState (<[l := unlocked]> (locks st)) (shared st)
                   (<[i := (c, Returned)]> (calls st)))
  | step_RUnlock st i c l n :
      calls st !! i = Some (c, AtUnlock l) ->
      writes c = false ->
      locks st !! l = Some (mkRWMutex false (S n)) ->
      step r st (mkState (<[l := mkRWMutex false n]> (locks st)) (shared st)
                   (<[i := (c, Returned)]> (calls st))).

(** A data race: two calls stand before their access to the shared map
    at once, and one of them writes it. *)
Definition race (st : state) : Prop :=
  exists i j c1 c2 l1 l2,
    i <> j /\
    calls st !! i = Some (c1, AtMap l1) /\
    calls st !! j = Some (c2, AtMap l2) /\
    writes c1 = true.

(** The number of calls of a kind that hold a lock (between their lock
    and unlock statements). *)
Definition holds (w : bool) (t : call * point) : nat :=
  match t with
  | (c, AtMap _) | (c, AtUnlock _) => if Bool.eqb (writes c) w then 1 else 0
  | _ => 0
  end.

Definition holders (w : bool) (ts : list (call * point)) : nat :=
  sum_list (holds w <$> ts).

(** The call works on the mutex at address 0, the caller's. *)
Definition at_zero (t : call * point) : Prop :=
  match snd t with
  | AtLock l | AtMap l | AtUnlock l => l = 0
  | Calling | Returned => True
  end.

(** What one shared mutex keeps true: it is held by one writer and no
    reader, or by its readers and no writer. *)
Definition lock_inv (st : state) : Prop :=
  exists mu,
    locks st = [mu] /\
    Forall at_zero (calls st) /\
    if writer mu
    then holders true (calls st) = 1 /\ holders false (calls st) = 0 /\
         readers mu = 0
    else holders true (calls st) = 0 /\ holders false (calls st) = readers mu.




End Conc.

(** * Properties *)

(** ** Point operations *)

Lemma Get_Some (s : Store) key kv :
  m s !! key = Some kv -> Get s key = (kv, None).
Proof. intros H. unfold Get. by rewrite H. Qed.

Lemma Get_None (s : Store) key :
  m s !! key = None -> Get s key = (KVPair_zero, Some ErrNotExist).
Proof. intros H. unfold Get. by rewrite H. Qed.

(** C1: whatever the store held before, after [Set(k, v)] the call
    [Get(k)] returns the record [{k, v}] and no error. *)
Theorem Get_after_Set (s : Store) (k v : string) :
  Get (Set_ s k v) k = (mkKVPair k v, None).
Proof. apply Get_Some. simpl. apply lookup_insert_eq. Qed.

Lemma Del_absent (s : Store) (k : string) :
  m s !! k = None -> Del s k = s.
Proof. destruct s as [ms]. simpl. intros H. unfold Del. simpl. by rewrite delete_id. Qed.

(** C7: after [Del(k)] the call [Get(k)] fails with [ErrNotExist]
    (returning the zero record); [Del] of an absent key leaves the store as
    it was, so a second [Del(k)] changes nothing; [Del] is a total function
    of the store and has no failure result. *)
Theorem Get_after_Del (s : Store) (k : string) :
  Get (Del s k) k = (KVPair_zero, Some ErrNotExist) /\
  (m s !! k = None -> Del s k = s) /\
  Del (Del s k) k = Del s k.
Proof.
  split; [|split].
  - apply Get_None. simpl. apply lookup_delete_eq.
  - apply Del_absent.
  - apply Del_absent. simpl. apply lookup_delete_eq.
Qed.

Lemma Get_after_Del_witness :
  Get (Del (Set_ New "/a" "1") "/b") "/b" = (KVPair_zero, Some ErrNotExist) /\
  Del (Set_ New "/a" "1") "/b" = Set_ New "/a" "1".
Proof.
  destruct (Get_after_Del (Set_ New "/a" "1") "/b") as (Hget & Hnoop & _).
  split; [exact Hget|]. apply Hnoop. reflexivity.
Defined.

(** ** The invariant [map[k].key == k] *)

Lemma keys_consistent_New : keys_consistent New.
Proof. intros k kv. unfold New. simpl. by rewrite lookup_empty. Qed.

Lemma keys_consistent_Set (s : Store) key value :
  keys_consistent s -> keys_consistent (Set_ s key value).
Proof.
  intros Hs k kv. simpl. rewrite lookup_insert_Some.
  intros [[<- <-]|[_ Hk]]; [done|]. by apply Hs.
Qed.

Lemma keys_consistent_Del (s : Store) key :
  keys_consistent s -> keys_consistent (Del s key).
Proof.
  intros Hs k kv. simpl. rewrite lookup_delete_Some.
  intros [_ Hk]. by apply Hs.
Qed.

Lemma keys_consistent_exec (o : op) (s : Store) :
  keys_consistent s -> keys_consistent (exec o s).
Proof.
  destruct o; simpl; auto using keys_consistent_Set, keys_consistent_Del.
Qed.

Lemma keys_consistent_run (ops : list op) (s : Store) :
  keys_consistent s -> keys_consistent (run ops s).
Proof.
  revert s. induction ops as [|o ops IH]; intros s Hs; [done|].
  unfold run. simpl. apply IH. by apply keys_consistent_exec.
Qed.

(** C9: the invariant [map[k].key == k] holds in the store made by [New],
    every operation ([Set], [Del] and the six that only read) preserves
    it, and so it holds after any sequence of operations on a new store. *)
Theorem keys_consistent_invariant :
  keys_consistent New /\
  (forall (o : op) (s : Store), keys_consistent s -> keys_consistent (exec o s)) /\
  (forall ops : list op, keys_consistent (run ops New)).
Proof.
  split; [apply keys_consistent_New|]. split.
  - intros o s. apply keys_consistent_exec.
  - intros ops. apply keys_consistent_run, keys_consistent_New.
Qed.

Lemma keys_consistent_invariant_witness :
  keys_consistent (exec (OpDel "/a") (exec (OpSet "/a" "1") New)).
Proof.
  destruct keys_consistent_invariant as (Hnew & Hstep & _).
  apply Hstep, Hstep, Hnew.
Defined.

(** ** The order of the sort *)

#[global] Instance kv_le_total : Total kv_le.
Proof. intros a b. unfold kv_le. apply (total String.le). Qed.

#[global] Instance kv_le_trans : Transitive kv_le.
Proof. intros a b c. unfold kv_le. apply transitivity. Qed.

Lemma sort_KVPairs_perm (ks : KVPairs) : sort_KVPairs ks ≡ₚ ks.
Proof. apply merge_sort_Permutation. Qed.

Lemma sort_KVPairs_sorted (ks : KVPairs) : StronglySorted kv_le (sort_KVPairs ks).
Proof. apply StronglySorted_merge_sort; apply _. Qed.

Lemma sort_Strings_perm (vs : list string) : sort_Strings vs ≡ₚ vs.
Proof. apply merge_sort_Permutation. Qed.

Lemma sort_Strings_sorted (vs : list string) :
  StronglySorted String.le (sort_Strings vs).
Proof. apply StronglySorted_merge_sort; apply _. Qed.

(** ** The entries of a store *)

Lemma elem_of_range_order (s : Store) (kv : KVPair) :
  kv ∈ range_order s <-> exists k, m s !! k = Some kv.
Proof.
  unfold range_order. rewrite list_elem_of_fmap. split.
  - intros [[k kv'] [-> Hin]]. exists k. by apply elem_of_map_to_list.
  - intros [k Hk]. exists (k, kv). split; [done|]. by apply elem_of_map_to_list.
Qed.

Lemma range_order_New : range_order New = [].
Proof. unfold range_order, New. simpl. by rewrite map_to_list_empty. Qed.

(** ** The scan of [GetAll] *)

Lemma GetAll_scan_ok pattern kvs ks :
  Forall (fun kv => ~ bad_on pattern kv) kvs ->
  GetAll_scan pattern kvs ks = Ok (ks ++ filter (matches pattern) kvs)%list.
Proof.
  intros Hall. revert ks. induction Hall as [|kv kvs Hkv _ IH]; intros ks; simpl.
  - by rewrite app_nil_r.
  - unfold bad_on in Hkv. rewrite filter_cons.
    destruct (Match pattern (Key kv)) as [[|] [e|]] eqn:HM; simpl in Hkv;
      try (exfalso; apply Hkv; discriminate).
    + rewrite decide_True by done. rewrite IH. by rewrite <- app_assoc.
    + rewrite decide_False by (unfold matches; congruence). apply IH.
Qed.

Lemma GetAll_scan_err pattern kvs ks :
  Exists (bad_on pattern) kvs ->
  exists e kv, kv ∈ kvs /\ snd (Match pattern (Key kv)) = Some e /\
    GetAll_scan pattern kvs ks = Err e.
Proof.
  intros Hex. revert ks.
  induction kvs as [|kv kvs IH]; intros ks; [by apply Exists_nil in Hex|].
  simpl. destruct (Match pattern (Key kv)) as [b [e|]] eqn:HM.
  - exists e, kv. rewrite HM. split; [by constructor|]. split; [reflexivity|by destruct b].
  - apply Exists_cons in Hex as [Hbad|Hex].
    + exfalso. apply Hbad. by rewrite HM.
    + destruct b.
      * destruct (IH Hex (ks ++ [kv])%list) as (e & kv' & ? & ? & ?).
        exists e, kv'. split; [by constructor|done].
      * destruct (IH Hex ks) as (e & kv' & ? & ? & ?).
        exists e, kv'. split; [by constructor|done].
Qed.

(** The three results of [GetAll], whatever the order of the visit. *)
Lemma GetAll_on_cases (kvs : list KVPair) pattern :
  (Exists (bad_on pattern) kvs /\
     exists e kv, kv ∈ kvs /\ snd (Match pattern (Key kv)) = Some e /\
       GetAll_on kvs pattern = (None, Some e)) \/
  (Forall (fun kv => ~ bad_on pattern kv) kvs /\
     filter (matches pattern) kvs = [] /\
     GetAll_on kvs pattern = (None, Some ErrNoMatch)) \/
  (Forall (fun kv => ~ bad_on pattern kv) kvs /\
     filter (matches pattern) kvs <> [] /\
     GetAll_on kvs pattern =
       (Some (sort_KVPairs (filter (matches pattern) kvs)), None)).
Proof.
  destruct (decide (Exists (bad_on pattern) kvs)) as [Hex|Hnex].
  - left. split; [done|].
    destruct (GetAll_scan_err pattern kvs [] Hex) as (e & kv & Hin & He & Hscan).
    exists e, kv. unfold GetAll_on. by rewrite Hscan.
  - right. apply not_Exists_Forall in Hnex; [|intros kv; apply _].
    pose proof (GetAll_scan_ok pattern kvs [] Hnex) as Hscan. simpl in Hscan.
    unfold GetAll_on. rewrite Hscan.
    destruct (filter (matches pattern) kvs) as [|kv l] eqn:Hf.
    + left. done.
    + right. done.
Qed.

(** ** The matcher terminates

    The loops of the matcher are written with fuel; the fuel their callers
    give is enough, so the value [None] never shows. *)

Lemma drop_bytes_length n s :
  String.length (drop_bytes n s) = String.length s - n.
Proof.
  revert s. induction n as [|n IH]; intros [|c s]; simpl; auto with lia.
Qed.

Lemma is_empty_true s : is_empty s = true <-> s = "".
Proof. destruct s; simpl; split; congruence. Qed.

Lemma is_empty_false s : is_empty s = false <-> 0 < String.length s.
Proof. destruct s; simpl; split; (congruence || lia). Qed.

Lemma DecodeRuneInString_size c s :
  1 <= snd (DecodeRuneInString (String c s)) <= 4.
Proof.
  unfold DecodeRuneInString. repeat case_match; simpl; lia.
Qed.

Lemma getEsc_shorter chunk r nchunk :
  getEsc chunk = Ok (r, nchunk) ->
  0 < String.length nchunk < String.length chunk.
Proof.
  unfold getEsc. destruct chunk as [|c chunk']; [done|].
  destruct (Ascii.eqb c "-" || Ascii.eqb c "]"); [done|].
  set (unesc := if Ascii.eqb c "\" then chunk' else String c chunk').
  assert (String.length unesc <= S (String.length chunk')) as Hlen.
  { unfold unesc. destruct (Ascii.eqb c "\"); simpl; lia. }
  destruct (is_empty unesc) eqn:Hemp; [done|].
  destruct unesc as [|c0 u]; [done|].
  pose proof (DecodeRuneInString_size c0 u) as Hsz.
  destruct (DecodeRuneInString (String c0 u)) as [r' n]. simpl in Hsz.
  destruct ((r' =? RuneError)%Z && (n =? 1)%nat); [done|].
  destruct (is_empty (drop_bytes n (String c0 u))) eqn:Hemp'; [done|].
  intros [= <- <-]. apply is_empty_false in Hemp'.
  rewrite drop_bytes_length in *. simpl in *. lia.
Qed.

Lemma getEsc_error chunk e : getEsc chunk = Err e -> e = ErrBadPattern.
Proof.
  unfold getEsc. repeat case_match; congruence.
Qed.

Lemma class_ranges_S fuel r chunk nrange mtch :
  class_ranges (S fuel) r chunk nrange mtch =
    if starts_with "]" chunk && (0 <? nrange)%nat then
      Some (Ok (mtch, drop_bytes 1 chunk))
    else
      match getEsc chunk with
      | Err e => Some (Err e)
      | Ok (lo, chunk1) =>
          if starts_with "-" chunk1 then
            match getEsc (drop_bytes 1 chunk1) with
            | Err e => Some (Err e)
            | Ok (hi, chunk2) =>
                class_ranges fuel r chunk2 (S nrange)
                  (mtch || ((lo <=? r)%Z && (r <=? hi)%Z))
            end
          else
            class_ranges fuel r chunk1 (S nrange)
              (mtch || ((lo <=? r)%Z && (r <=? lo)%Z))
      end.
Proof. reflexivity. Qed.

Lemma class_ranges_total fuel r chunk nrange mtch :
  String.length chunk < fuel ->
  exists out, class_ranges fuel r chunk nrange mtch = Some out /\
    match out with
    | Ok (_, chunk') => String.length chunk' < String.length chunk
    | Err e => e = ErrBadPattern
    end.
Proof.
  revert r chunk nrange mtch.
  induction fuel as [|fuel IH]; intros r chunk nrange mtch Hlen; [lia|].
  rewrite class_ranges_S.
  destruct (starts_with "]" chunk && (0 <? nrange)%nat) eqn:Hclose.
  { eexists. split; [done|]. destruct chunk; simpl in *; [done|lia]. }
  destruct (getEsc chunk) as [[lo chunk1]|e] eqn:Hesc;
    [|apply getEsc_error in Hesc as ->; by eexists].
  apply getEsc_shorter in Hesc.
  destruct (starts_with "-" chunk1).
  - destruct (getEsc (drop_bytes 1 chunk1)) as [[hi chunk2]|e] eqn:Hesc2;
      [|apply getEsc_error in Hesc2 as ->; by eexists].
    apply getEsc_shorter in Hesc2. rewrite drop_bytes_length in Hesc2.
    edestruct (IH r chunk2) as (out & -> & Hout); [lia|].
    exists out. split; [done|]. destruct out as [[? ?]|?]; [lia|done].
  - edestruct (IH r chunk1) as (out & -> & Hout); [lia|].
    exists out. split; [done|]. destruct out as [[? ?]|?]; [lia|done].
Qed.

Lemma matchChunk_loop_S fuel failed chunk s :
  matchChunk_loop (S fuel) failed chunk s =
    match chunk with
    | "" => Some (if failed then ("", false, None) else (s, true, None))
    | String c chunk' =>
        let failed := failed || is_empty s in
        let literal (c : ascii) (chunk' : string) :=
          match s with
          | String c0 s' =>
              if failed then matchChunk_loop fuel failed chunk' s
              else matchChunk_loop fuel (negb (Ascii.eqb c c0)) chunk' s'
          | "" => matchChunk_loop fuel failed chunk' s
          end in
        if Ascii.eqb c "[" then
          let '(r, s') :=
            if failed then (0%Z, s)
            else let '(r, n) := DecodeRuneInString s in (r, drop_bytes n s) in
          let '(negated, chunk1) :=
            if starts_with "^" chunk' then (true, drop_bytes 1 chunk')
            else (false, chunk') in
          match class_ranges (S (String.length chunk1)) r chunk1 0 false with
          | None => None
          | Some (Err e) => Some ("", false, Some e)
          | Some (Ok (mtch, chunk2)) =>
              matchChunk_loop fuel (failed || Bool.eqb mtch negated) chunk2 s'
          end
        else if Ascii.eqb c "?" then
          match s with
          | String c0 _ =>
              if failed then matchChunk_loop fuel failed chunk' s
              else
                let '(_, n) := DecodeRuneInString s in
                matchChunk_loop fuel (Ascii.eqb c0 "/") chunk' (drop_bytes n s)
          | "" => matchChunk_loop fuel failed chunk' s
          end
        else if Ascii.eqb c "\" then
          match chunk' with
          | "" => Some ("", false, Some ErrBadPattern)
          | String c1 chunk1 => literal c1 chunk1
          end
        else literal c chunk'
    end.
Proof. reflexivity. Qed.

(** With fuel above the length of the chunk the loop of [matchChunk]
    returns; its error, if any, is [ErrBadPattern]; when it reports a match
    ([ok]) there is no error. *)
Lemma matchChunk_loop_total fuel failed chunk s :
  String.length chunk < fuel ->
  exists t ok err, matchChunk_loop fuel failed chunk s = Some (t, ok, err) /\
    (err = None \/ err = Some ErrBadPattern) /\
    (ok = true -> err = None).
Proof.
  revert failed chunk s.
  induction fuel as [|fuel IH]; intros failed chunk s Hlen; [lia|].
  rewrite matchChunk_loop_S. destruct chunk as [|c chunk'].
  { destruct failed; do 3 eexists; (split; [done|]); split; auto. }
  simpl in Hlen. cbv zeta.
  assert (forall c1 chunk1 f, String.length chunk1 <= String.length chunk' ->
    exists t ok err,
      match s with
      | String c0 s' =>
          if f then matchChunk_loop fuel f chunk1 s
          else matchChunk_loop fuel (negb (Ascii.eqb c1 c0)) chunk1 s'
      | "" => matchChunk_loop fuel f chunk1 s
      end = Some (t, ok, err) /\
      (err = None \/ err = Some ErrBadPattern) /\ (ok = true -> err = None))
    as Hlit.
  { intros c1 chunk1 f Hle. destruct s as [|c0 s']; [|destruct f]; apply IH; lia. }
  destruct (Ascii.eqb c "[").
  - destruct (if failed || is_empty s then (0%Z, s)
              else let '(r, n) := DecodeRuneInString s in (r, drop_bytes n s))
      as [r s'].
    destruct (if starts_with "^" chunk' then (true, drop_bytes 1 chunk')
              else (false, chunk')) as [negated chunk1] eqn:Hneg.
    assert (String.length chunk1 <= String.length chunk') as Hle.
    { destruct (starts_with "^" chunk'); injection Hneg as <- <-;
        [destruct chunk'; simpl; lia|lia]. }
    destruct (class_ranges_total (S (String.length chunk1)) r chunk1 0 false)
      as (out & -> & Hout); [lia|].
    destruct out as [[mtch chunk2]|e].
    + apply IH. lia.
    + subst e. exists "", false, (Some ErrBadPattern).
      split; [done|]. split; [by right|done].
  - destruct (Ascii.eqb c "?").
    + destruct s as [|c0 s0]; [apply IH; lia|].
      destruct (failed || is_empty (String c0 s0)); [apply IH; lia|].
      destruct (DecodeRuneInString (String c0 s0)). apply IH. lia.
    + destruct (Ascii.eqb c "\").
      * destruct chunk' as [|c1 chunk1].
        { exists "", false, (Some ErrBadPattern).
          split; [done|]. split; [by right|done]. }
        apply Hlit. simpl. lia.
      * apply Hlit. lia.
Qed.

Lemma matchChunk_eq chunk s :
  matchChunk_loop (matchChunk_fuel chunk) false chunk s = Some (matchChunk chunk s).
Proof.
  unfold matchChunk.
  destruct (matchChunk_loop_total (matchChunk_fuel chunk) false chunk s)
    as (t & ok & err & -> & _); [unfold matchChunk_fuel; lia|done].
Qed.

Lemma matchChunk_error chunk s t ok e :
  matchChunk chunk s = (t, ok, Some e) -> e = ErrBadPattern /\ ok = false.
Proof.
  intros H. pose proof (matchChunk_eq chunk s) as Heq. rewrite H in Heq.
  destruct (matchChunk_loop_total (matchChunk_fuel chunk) false chunk s)
    as (t' & ok' & err' & Hrun & Herr & Hok); [unfold matchChunk_fuel; lia|].
  rewrite Hrun in Heq. injection Heq as -> -> ->.
  split; [destruct Herr; congruence|]. destruct ok; [|done].
  specialize (Hok eq_refl). done.
Qed.

(** ** [scanChunk] splits the pattern *)

Lemma append_String c a b : (String c a ++ b) = String c (a ++ b).
Proof. reflexivity. Qed.

Lemma append_empty_l b : ("" ++ b) = b.
Proof. reflexivity. Qed.

Lemma append_length a b :
  String.length (a ++ b) = String.length a + String.length b.
Proof. induction a as [|c a IH]; [done|]. rewrite append_String. simpl. lia. Qed.

Lemma count_slash_append a b :
  count_slash (a ++ b) = count_slash a + count_slash b.
Proof. induction a as [|c a IH]; [done|]. rewrite append_String. simpl. lia. Qed.

Lemma plain_pattern_append a b :
  plain_pattern (a ++ b) = plain_pattern a && plain_pattern b.
Proof.
  induction a as [|c a IH]; [done|]. rewrite append_String. simpl.
  rewrite IH. by rewrite andb_assoc.
Qed.

Lemma scan_String b c pattern' :
  scan b (String c pattern') =
    if Ascii.eqb c "\" then
      match pattern' with
      | "" => (String c "", "")
      | String c1 pattern2 =>
          let '(chunk, rest) := scan b pattern2 in
          (String c (String c1 chunk), rest)
      end
    else if Ascii.eqb c "[" then
      let '(chunk, rest) := scan true pattern' in (String c chunk, rest)
    else if Ascii.eqb c "]" then
      let '(chunk, rest) := scan false pattern' in (String c chunk, rest)
    else if Ascii.eqb c "*" && negb b then ("", String c pattern')
    else
      let '(chunk, rest) := scan b pattern' in (String c chunk, rest).
Proof. reflexivity. Qed.

Lemma scan_append n : forall pattern b chunk rest,
  String.length pattern <= n ->
  scan b pattern = (chunk, rest) -> pattern = chunk ++ rest.
Proof.
  induction n as [|n IH]; intros [|c p] b chunk rest Hlen; simpl in Hlen;
    try lia; try (intros [= <- <-]; reflexivity).
  rewrite scan_String.
  destruct (Ascii.eqb c "\").
  { destruct p as [|c1 p2]; [by intros [= <- <-]|].
    destruct (scan b p2) as [ch r] eqn:Hs. intros [= <- <-].
    rewrite !append_String. do 2 f_equal. eapply IH; [|done]. simpl in Hlen. lia. }
  destruct (Ascii.eqb c "[").
  { destruct (scan true p) as [ch r] eqn:Hs. intros [= <- <-].
    rewrite append_String. f_equal. eapply IH; [|done]. lia. }
  destruct (Ascii.eqb c "]").
  { destruct (scan false p) as [ch r] eqn:Hs. intros [= <- <-].
    rewrite append_String. f_equal. eapply IH; [|done]. lia. }
  destruct (Ascii.eqb c "*" && negb b); [by intros [= <- <-]|].
  destruct (scan b p) as [ch r] eqn:Hs. intros [= <- <-].
  rewrite append_String. f_equal. eapply IH; [|done]. lia.
Qed.

(** The chunk is empty only at the end of the pattern or before a [*]. *)
Lemma scan_empty_chunk b pattern rest :
  scan b pattern = ("", rest) ->
  pattern = "" \/ (starts_with "*" pattern = true /\ b = false).
Proof.
  destruct pattern as [|c p]; [by left|]. rewrite scan_String.
  destruct (Ascii.eqb c "\").
  { destruct p; [done|]. by destruct (scan b p). }
  destruct (Ascii.eqb c "["); [by destruct (scan true p)|].
  destruct (Ascii.eqb c "]"); [by destruct (scan false p)|].
  destruct (Ascii.eqb c "*" && negb b) eqn:Hstar; [|by destruct (scan b p)].
  intros _. right. apply andb_true_iff in Hstar as [Hc Hb]. simpl.
  split; [done|]. by destruct b.
Qed.

Lemma skip_stars_spec pattern :
  let '(star, pattern') := skip_stars pattern in
  String.length pattern' <= String.length pattern /\
  (star = true -> String.length pattern' < String.length pattern) /\
  (star = false -> pattern' = pattern) /\
  starts_with "*" pattern' = false /\
  count_slash pattern' = count_slash pattern /\
  plain_pattern pattern' = plain_pattern pattern.
Proof.
  induction pattern as [|c p IH]; [done|]. simpl.
  destruct (Ascii.eqb_spec c "*") as [->|Hne].
  - destruct (skip_stars p) as [star' p']. simpl.
    destruct IH as (? & ? & ? & ? & ? & ?). repeat split; auto with lia.
  - repeat split; auto with lia. simpl. by apply Ascii.eqb_neq.
Qed.

(** What [scanChunk] returns: the rest is shorter than the pattern, the
    chunk and the rest together hold the separators of the pattern, and a
    star with an empty chunk ends the pattern. *)
Lemma scanChunk_spec pattern star chunk rest :
  scanChunk pattern = (star, chunk, rest) ->
  (pattern <> "" -> String.length rest < String.length pattern) /\
  count_slash pattern = count_slash chunk + count_slash rest /\
  plain_pattern pattern = plain_pattern chunk && plain_pattern rest /\
  (chunk = "" -> rest = "" /\ count_slash pattern = 0).
Proof.
  unfold scanChunk. pose proof (skip_stars_spec pattern) as Hskip.
  destruct (skip_stars pattern) as [star' p'].
  destruct Hskip as (Hle & Hlt & Hsame & Hnostar & Hcount & Hplain).
  destruct (scan false p') as [ch r] eqn:Hscan. intros [= -> -> ->].
  pose proof (scan_append _ _ _ _ _ (le_n _) Hscan) as Happ.
  assert (chunk = "" -> rest = "") as Hend.
  { intros ->. apply scan_empty_chunk in Hscan as [->|[Hs _]]; [|congruence].
    by rewrite append_empty_l in Happ. }
  split; [|split; [|split]].
  - intros Hne. rewrite Happ, append_length in Hle.
    destruct star.
    + specialize (Hlt eq_refl). rewrite Happ, append_length in Hlt. lia.
    + specialize (Hsame eq_refl). subst pattern.
      destruct chunk as [|c ch].
      * rewrite (Hend eq_refl) in Happ. by rewrite Happ in Hne.
      * rewrite Happ, append_length. simpl. lia.
  - by rewrite <- Hcount, Happ, count_slash_append.
  - by rewrite <- Hplain, Happ, plain_pattern_append.
  - intros ->. split; [auto|].
    rewrite <- Hcount, Happ, (Hend eq_refl). reflexivity.
Qed.

(** ** [Match] terminates, and its only error is [ErrBadPattern] *)

Lemma check_rest_S fuel c p :
  check_rest (S fuel) (String c p) =
    let '(_, chunk, rest) := scanChunk (String c p) in
    match matchChunk chunk "" with
    | (_, _, Some e) => Some (Some e)
    | (_, _, None) => check_rest fuel rest
    end.
Proof. reflexivity. Qed.

Lemma check_rest_total fuel pattern :
  String.length pattern <= fuel ->
  exists err, check_rest fuel pattern = Some err /\
    (err = None \/ err = Some ErrBadPattern).
Proof.
  revert pattern. induction fuel as [|fuel IH]; intros [|c p] Hlen;
    simpl in Hlen; try lia; try (exists None; split; [done|by left]).
  rewrite check_rest_S.
  destruct (scanChunk (String c p)) as [[star chunk] rest] eqn:Hscan.
  apply scanChunk_spec in Hscan as (Hshort & _). specialize (Hshort ltac:(done)).
  destruct (matchChunk chunk "") as [[t ok] [e|]] eqn:Hm.
  - apply matchChunk_error in Hm as [-> _].
    exists (Some ErrBadPattern). split; [done|by right].
  - apply IH. simpl in Hshort. lia.
Qed.

Lemma star_loop_error chunk last name e :
  star_loop chunk last name = StarErr e -> e = ErrBadPattern.
Proof.
  induction name as [|c name IH]; simpl; [done|].
  destruct (Ascii.eqb c "/"); [done|].
  destruct (matchChunk chunk name) as [[t ok] err] eqn:Hm.
  destruct ok.
  - destruct (last && negb (is_empty t)); [done|done].
  - destruct err as [e'|]; [|done].
    intros [= <-]. by apply matchChunk_error in Hm as [-> _].
Qed.

Lemma Match_loop_S fuel c p name :
  Match_loop (S fuel) (String c p) name =
    let '(star, chunk, rest) := scanChunk (String c p) in
    if star && is_empty chunk then
      Some (negb (Contains_slash name), None)
    else
      let '(t, ok, err) := matchChunk chunk name in
      if ok && (is_empty t || negb (is_empty rest)) then
        Match_loop fuel rest t
      else
        match err with
        | Some e => Some (false, Some e)
        | None =>
            match (if star then star_loop chunk (is_empty rest) name
                   else StarMiss) with
            | StarHit t' => Match_loop fuel rest t'
            | StarErr e => Some (false, Some e)
            | StarMiss =>
                match check_rest fuel rest with
                | Some err' => Some (false, err')
                | None => None
                end
            end
        end.
Proof. reflexivity. Qed.

Lemma Match_loop_total fuel pattern name :
  String.length pattern <= fuel ->
  exists b err, Match_loop fuel pattern name = Some (b, err) /\
    (err = None \/ err = Some ErrBadPattern) /\
    (b = true -> err = None).
Proof.
  revert pattern name. induction fuel as [|fuel IH]; intros [|c p] name Hlen;
    simpl in Hlen; try lia;
    try (exists (is_empty name), None; split; [done|split; [by left|done]]).
  rewrite Match_loop_S.
  destruct (scanChunk (String c p)) as [[star chunk] rest] eqn:Hscan.
  apply scanChunk_spec in Hscan as (Hshort & _). specialize (Hshort ltac:(done)).
  simpl in Hshort.
  destruct (star && is_empty chunk).
  { eexists _, None. split; [done|split; [by left|done]]. }
  destruct (matchChunk chunk name) as [[t ok] err] eqn:Hm.
  destruct (ok && (is_empty t || negb (is_empty rest))); [apply IH; lia|].
  destruct err as [e|].
  { apply matchChunk_error in Hm as [-> _].
    exists false, (Some ErrBadPattern). split; [done|split; [by right|done]]. }
  destruct (if star then star_loop chunk (is_empty rest) name else StarMiss)
    as [t'|e|] eqn:Hstar.
  - apply IH. lia.
  - destruct star; [|done]. apply star_loop_error in Hstar as ->.
    exists false, (Some ErrBadPattern). split; [done|split; [by right|done]].
  - destruct (check_rest_total fuel rest) as (err' & -> & Herr); [lia|].
    exists false, err'. split; [done|split; [done|done]].
Qed.

Lemma Match_eq pattern name :
  Match_loop (String.length pattern) pattern name = Some (Match pattern name).
Proof.
  unfold Match.
  destruct (Match_loop_total (String.length pattern) pattern name)
    as (b & err & -> & _); done.
Qed.

(** [Match] returns for every pattern and name, with no error or with
    [ErrBadPattern], and never with both a match and an error. *)
Lemma Match_total pattern name :
  exists b err, Match pattern name = (b, err) /\
    (err = None \/ err = Some ErrBadPattern) /\ (b = true -> err = None).
Proof.
  destruct (Match_loop_total (String.length pattern) pattern name)
    as (b & err & Hrun & Herr); [done|].
  exists b, err. split; [|done].
  pose proof (Match_eq pattern name) as Heq. congruence.
Qed.

Lemma Match_error pattern name e :
  snd (Match pattern name) = Some e -> e = ErrBadPattern.
Proof.
  destruct (Match_total pattern name) as (b & err & -> & [->| ->] & _); simpl;
    congruence.
Qed.

(** ** Wildcards do not cross the separator

    For a pattern of literals, [*] and [?] (no class, no escape), a name
    that matches has exactly the separators of the pattern: every [/] of
    the name is matched by a [/] written in the pattern. *)

Lemma take_drop_bytes n s : (take_bytes n s ++ drop_bytes n s) = s.
Proof.
  revert s. induction n as [|n IH]; intros [|c s]; simpl; try done.
  rewrite append_String. by rewrite IH.
Qed.

Lemma in_range_not_slash lo hi c :
  in_range lo hi c = true -> (128 <= lo)%Z -> Ascii.eqb c "/" = false.
Proof.
  unfold in_range. intros Hin Hlo.
  destruct (Ascii.eqb_spec c "/") as [->|]; [|done].
  vm_compute byte_val in Hin. lia.
Qed.

Lemma utf8_first_lo b0 sz lo hi :
  utf8_first b0 = Some (sz, lo, hi) -> (128 <= lo)%Z.
Proof. unfold utf8_first. repeat case_match; intros [= <- <- <-]; lia. Qed.

Lemma byte_val_slash c : Ascii.eqb c "/" = true -> byte_val c = 47%Z.
Proof. intros ->%Ascii.eqb_eq. reflexivity. Qed.

(** The bytes a rune takes hold no separator beyond a leading one. *)
Lemma DecodeRuneInString_no_slash c0 s0 :
  count_slash (take_bytes (snd (DecodeRuneInString (String c0 s0))) (String c0 s0))
  = if Ascii.eqb c0 "/" then 1 else 0.
Proof.
  unfold DecodeRuneInString.
  destruct (byte_val c0 <? 128)%Z eqn:Hascii; [simpl; lia|].
  assert (Ascii.eqb c0 "/" = false) as Hc0.
  { destruct (Ascii.eqb c0 "/") eqn:E; [|done]. apply byte_val_slash in E. lia. }
  rewrite Hc0.
  destruct (utf8_first (byte_val c0)) as [[[sz lo] hi]|] eqn:Hfirst;
    [|simpl; rewrite Hc0; lia].
  apply utf8_first_lo in Hfirst.
  destruct s0 as [|c1 s2]; [simpl; rewrite Hc0; lia|].
  destruct (in_range lo hi c1) eqn:H1; simpl negb; cbv iota;
    [|simpl; rewrite Hc0; lia].
  apply in_range_not_slash in H1; [|done].
  destruct (sz <=? 2)%nat; [simpl; rewrite Hc0, H1; lia|].
  destruct s2 as [|c2 s3]; [simpl; rewrite Hc0; lia|].
  destruct (in_range 128 191 c2) eqn:H2; simpl negb; cbv iota;
    [|simpl; rewrite Hc0; lia].
  apply in_range_not_slash in H2; [|lia].
  destruct (sz <=? 3)%nat; [simpl; rewrite Hc0, H1, H2; lia|].
  destruct s3 as [|c3 s4]; [simpl; rewrite Hc0; lia|].
  destruct (in_range 128 191 c3) eqn:H3; simpl negb; cbv iota;
    [|simpl; rewrite Hc0; lia].
  apply in_range_not_slash in H3; [|lia].
  simpl. rewrite Hc0, H1, H2, H3. lia.
Qed.

Lemma append_assoc_str a b c : ((a ++ b) ++ c) = (a ++ (b ++ c)).
Proof. induction a as [|x a IH]; [done|]. rewrite !append_String. by rewrite IH. Qed.

(** A plain chunk that matches reads from the name as many separators as
    it holds itself. *)
Lemma matchChunk_loop_plain fuel : forall failed chunk s t,
  plain_pattern chunk = true ->
  matchChunk_loop fuel failed chunk s = Some (t, true, None) ->
  failed = false /\ exists pre, s = pre ++ t /\ count_slash pre = count_slash chunk.
Proof.
  induction fuel as [|fuel IH]; intros failed chunk s t Hplain; [done|].
  rewrite matchChunk_loop_S. destruct chunk as [|c chunk'].
  { destruct failed; [done|]. intros [= ->]. split; [done|]. by exists "". }
  simpl in Hplain. apply andb_true_iff in Hplain as [Hc Hplain].
  apply andb_true_iff in Hc as [Hc1 Hc2].
  apply negb_true_iff in Hc1, Hc2. cbv zeta. rewrite Hc1, Hc2.
  destruct (Ascii.eqb_spec c "?") as [->|Hq].
  - destruct s as [|c0 s0].
    + intros Hrun. apply IH in Hrun as [Hf _]; [|done].
      by rewrite orb_true_r in Hf.
    + simpl is_empty. rewrite orb_false_r. destruct failed.
      { intros Hrun. by apply IH in Hrun as [Hf _]. }
      pose proof (DecodeRuneInString_no_slash c0 s0) as Hrune.
      destruct (DecodeRuneInString (String c0 s0)) as [r n]. simpl in Hrune.
      intros Hrun. apply IH in Hrun as (Hsep & pre & Hpre & Hcount); [|done].
      split; [done|]. rewrite Hsep in Hrune.
      exists (take_bytes n (String c0 s0) ++ pre). split.
      * rewrite append_assoc_str, <- Hpre. by rewrite take_drop_bytes.
      * rewrite count_slash_append, Hrune, Hcount. reflexivity.
  - destruct s as [|c0 s0].
    + intros Hrun. apply IH in Hrun as [Hf _]; [|done].
      by rewrite orb_true_r in Hf.
    + simpl is_empty. rewrite orb_false_r. destruct failed.
      { intros Hrun. by apply IH in Hrun as [Hf _]. }
      intros Hrun. apply IH in Hrun as (Heq & pre & Hpre & Hcount); [|done].
      apply negb_false_iff, Ascii.eqb_eq in Heq as ->.
      split; [done|]. exists (String c0 pre). split.
      * rewrite append_String. by rewrite <- Hpre.
      * simpl. by rewrite Hcount.
Qed.

Lemma matchChunk_plain chunk s t :
  plain_pattern chunk = true ->
  matchChunk chunk s = (t, true, None) ->
  exists pre, s = pre ++ t /\ count_slash pre = count_slash chunk.
Proof.
  intros Hplain Hm. pose proof (matchChunk_eq chunk s) as Heq. rewrite Hm in Heq.
  by apply matchChunk_loop_plain in Heq as [_ ?].
Qed.

(** After a star the loop skips bytes that are not separators. *)
Lemma star_loop_plain chunk last name t :
  plain_pattern chunk = true ->
  star_loop chunk last name = StarHit t ->
  exists pre, name = pre ++ t /\ count_slash pre = count_slash chunk.
Proof.
  intros Hplain. induction name as [|c name IH]; simpl; [done|].
  destruct (Ascii.eqb c "/") eqn:Hc; [done|].
  assert (forall pre, name = pre ++ t -> count_slash pre = count_slash chunk ->
    exists pre', String c name = pre' ++ t /\ count_slash pre' = count_slash chunk)
    as Hskip.
  { intros pre -> Hcount. exists (String c pre).
    split; [by rewrite append_String|]. simpl. by rewrite Hc, Hcount. }
  destruct (matchChunk chunk name) as [[t' ok] err] eqn:Hm.
  destruct ok.
  - assert (err = None) as ->.
    { destruct err as [e|]; [|done]. by apply matchChunk_error in Hm as [_ ?]. }
    destruct (last && negb (is_empty t')).
    + intros Hrun. destruct (IH Hrun) as (pre & Hpre & Hcount). eauto.
    + intros [= ->].
      destruct (matchChunk_plain _ _ _ Hplain Hm) as (pre & Hpre & Hcount). eauto.
  - destruct err; [done|].
    intros Hrun. destruct (IH Hrun) as (pre & Hpre & Hcount). eauto.
Qed.

Lemma Contains_slash_count s : Contains_slash s = false <-> count_slash s = 0.
Proof.
  induction s as [|c s IH]; simpl; [done|].
  destruct (Ascii.eqb c "/"); simpl; [split; [done|lia]|done].
Qed.

Lemma Match_loop_plain fuel : forall pattern name,
  plain_pattern pattern = true ->
  Match_loop fuel pattern name = Some (true, None) ->
  count_slash name = count_slash pattern.
Proof.
  induction fuel as [|fuel IH]; intros [|c p] name Hplain; simpl; try done;
    try (intros [= ->%is_empty_true]; done).
  change (Match_loop (S fuel) (String c p) name = Some (true, None) ->
          count_slash name = count_slash (String c p)).
  rewrite Match_loop_S.
  destruct (scanChunk (String c p)) as [[star chunk] rest] eqn:Hscan.
  apply scanChunk_spec in Hscan as (_ & Hcount & Hpl & Hend).
  rewrite Hplain in Hpl. symmetry in Hpl.
  apply andb_true_iff in Hpl as [Hplc Hplr]. rewrite Hcount.
  destruct (star && is_empty chunk) eqn:Hse.
  { apply andb_true_iff in Hse as [_ ->%is_empty_true].
    destruct (Hend eq_refl) as [-> _]. intros [= Hno]. simpl.
    apply negb_true_iff in Hno. by apply Contains_slash_count. }
  destruct (matchChunk chunk name) as [[t ok] err] eqn:Hm.
  destruct (ok && (is_empty t || negb (is_empty rest))) eqn:Hgo.
  { apply andb_true_iff in Hgo as [-> _]. intros Hrun.
    assert (err = None) as ->.
    { destruct err as [e|]; [|done]. by apply matchChunk_error in Hm as [_ ?]. }
    destruct (matchChunk_plain _ _ _ Hplc Hm) as (pre & -> & Hpre).
    rewrite count_slash_append, Hpre. f_equal. by apply IH. }
  destruct err as [e|]; [done|].
  destruct star; [|by destruct (check_rest fuel rest)].
  destruct (star_loop chunk (is_empty rest) name) as [t'|e|] eqn:Hstar;
    [|done|by destruct (check_rest fuel rest)].
  intros Hrun. destruct (star_loop_plain _ _ _ _ Hplc Hstar) as (pre & -> & Hpre).
  rewrite count_slash_append, Hpre. f_equal. by apply IH.
Qed.

(** In a pattern without class and escape the wildcards [*] and [?] never
    match a separator: a matching name has the separators of the pattern. *)
Lemma Match_plain_separators pattern name :
  plain_pattern pattern = true ->
  Match pattern name = (true, None) ->
  count_slash name = count_slash pattern.
Proof.
  intros Hplain HM. pose proof (Match_eq pattern name) as Heq. rewrite HM in Heq.
  by eapply Match_loop_plain.
Qed.

(** Some patterns on every name. *)
Lemma Match_star name : Match "*" name = (negb (Contains_slash name), None).
Proof. reflexivity. Qed.

Lemma Match_open_class name : Match "[" name = (false, Some ErrBadPattern).
Proof.
  unfold Match. simpl String.length. rewrite Match_loop_S.
  change (scanChunk "[") with (false, "[", "").
  cbv iota beta. simpl andb. cbv iota.
  assert (matchChunk "[" name = ("", false, Some ErrBadPattern)) as ->; [|done].
  unfold matchChunk, matchChunk_fuel. simpl String.length.
  rewrite matchChunk_loop_S. simpl Ascii.eqb. cbv iota zeta.
  destruct (if false || is_empty name then (0%Z, name)
            else let '(r, n) := DecodeRuneInString name in (r, drop_bytes n name))
    as [r s']. reflexivity.
Qed.

Example Match_examples :
  Match "/a/*" "/a/1" = (true, None) /\
  Match "/a/*" "/a/b/1" = (false, None) /\
  Match "/*/1" "/a/1" = (true, None) /\
  Match "/a?1" "/a/1" = (false, None) /\
  Match "/a/?" "/a/1" = (true, None) /\
  Match "/a/[0-9]" "/a/1" = (true, None) /\
  Match "/a/[^0-9]" "/a/1" = (false, None) /\
  Match "/a[/]1" "/a/1" = (true, None) /\
  Match "/a/\*" "/a/*" = (true, None) /\
  Match "/a/[" "/b" = (false, Some ErrBadPattern).
Proof. repeat split; reflexivity. Qed.

(** The table of tests of path/filepath (match_test.go) holds of the
    embedding. *)
Example Match_test_table :
  Forall (fun '(pattern, name, result) => Match pattern name = result)
    [ ("abc", "abc", (true, None)); ("*", "abc", (true, None));
      ("*c", "abc", (true, None)); ("a*", "a", (true, None));
      ("a*", "abc", (true, None)); ("a*", "ab/c", (false, None));
      ("a*/b", "abc/b", (true, None)); ("a*/b", "a/c/b", (false, None));
      ("a*b*c*d*e*/f", "axbxcxdxe/f", (true, None));
      ("a*b*c*d*e*/f", "axbxcxdxexxx/f", (true, None));
      ("a*b*c*d*e*/f", "axbxcxdxe/xxx/f", (false, None));
      ("a*b*c*d*e*/f", "axbxcxdxexxx/fff", (false, None));
      ("a*b?c*x", "abxbbxdbxebxczzx", (true, None));
      ("a*b?c*x", "abxbbxdbxebxczzy", (false, None));
      ("ab[c]", "abc", (true, None)); ("ab[b-d]", "abc", (true, None));
      ("ab[e-g]", "abc", (false, None)); ("ab[^c]", "abc", (false, None));
      ("ab[^b-d]", "abc", (false, None)); ("ab[^e-g]", "abc", (true, None));
      ("a\*b", "a*b", (true, None)); ("a\*b", "ab", (false, None));
      ("a?b", "a☺b", (true, None)); ("a[^a]b", "a☺b", (true, None));
      ("a???b", "a☺b", (false, None));
      ("a[^a][^a][^a]b", "a☺b", (false, None));
      ("[a-ζ]*", "α", (true, None)); ("*[a-ζ]", "A", (false, None));
      ("a?b", "a/b", (false, None)); ("a*b", "a/b", (false, None));
      ("[\]a]", "]", (true, None)); ("[\-]", "-", (true, None));
      ("[x\-]", "x", (true, None)); ("[x\-]", "-", (true, None));
      ("[x\-]", "z", (false, None)); ("[\-x]", "x", (true, None));
      ("[\-x]", "-", (true, None)); ("[\-x]", "a", (false, None));
      ("[]a]", "]", (false, Some ErrBadPattern));
      ("[-]", "-", (false, Some ErrBadPattern));
      ("[x-]", "x", (false, Some ErrBadPattern));
      ("[x-]", "-", (false, Some ErrBadPattern));
      ("[x-]", "z", (false, Some ErrBadPattern));
      ("[-x]", "x", (false, Some ErrBadPattern));
      ("[-x]", "-", (false, Some ErrBadPattern));
      ("[-x]", "a", (false, Some ErrBadPattern));
      ("\", "a", (false, Some ErrBadPattern));
      ("[a-b-c]", "a", (false, Some ErrBadPattern));
      ("[", "a", (false, Some ErrBadPattern));
      ("[^", "a", (false, Some ErrBadPattern));
      ("[^bc", "a", (false, Some ErrBadPattern));
      ("a[", "a", (false, Some ErrBadPattern));
      ("a[", "ab", (false, Some ErrBadPattern));
      ("a[", "x", (false, Some ErrBadPattern));
      ("a/b[", "x", (false, Some ErrBadPattern));
      ("*x", "xxx", (true, None)) ].
Proof. repeat (constructor; [vm_compute; reflexivity|]). constructor. Qed.

(** The order of the sort is the order of the bytes. *)
Example byte_order :
  String.le "/A" "/a" /\ String.le "/a" "/a/b" /\ String.le "/a/10" "/a/9" /\
  ~ String.le "/b" "/a".
Proof. repeat split; vm_compute; auto. Qed.

(** ** [GetAll] *)

Lemma GetAll_on_ok_inv kvs pattern ks :
  GetAll_on kvs pattern = (Some ks, None) ->
  Forall (fun kv => ~ bad_on pattern kv) kvs /\
  ks = sort_KVPairs (filter (matches pattern) kvs) /\ ks <> [].
Proof.
  intros Hok.
  destruct (GetAll_on_cases kvs pattern)
    as [(_ & e & kv & _ & _ & H)|[(_ & _ & H)|(Hall & Hne & H)]];
    rewrite H in Hok; try done.
  injection Hok as <-. split; [done|]. split; [done|].
  intros Hnil. apply Hne. apply Permutation_nil_r.
  rewrite <- Hnil. symmetry. apply sort_KVPairs_perm.
Qed.

(** C2: when [GetAll(pattern)] succeeds, whatever the order in which the
    map was visited, it returns exactly the records of the store whose key
    the matcher [filepath.Match] accepts for the pattern (each once),
    sorted by key in ascending byte-wise order; and for a pattern of
    literals, [*] and [?] the keys returned have exactly the separators of
    the pattern, the wildcards matching none. *)
Theorem GetAll_sorted_matches (s : Store) (pattern : string) (kvs ks : KVPairs) :
  kvs ≡ₚ range_order s ->
  GetAll_on kvs pattern = (Some ks, None) ->
  ks ≡ₚ filter (matches pattern) (range_order s) /\
  StronglySorted kv_le ks /\
  (forall kv, kv ∈ ks <-> (exists k, m s !! k = Some kv) /\ matches pattern kv) /\
  (plain_pattern pattern = true ->
   forall kv, kv ∈ ks -> count_slash (Key kv) = count_slash pattern).
Proof.
  intros Hperm Hok. apply GetAll_on_ok_inv in Hok as (_ & -> & _).
  assert (sort_KVPairs (filter (matches pattern) kvs)
          ≡ₚ filter (matches pattern) (range_order s)) as Hp.
  { rewrite sort_KVPairs_perm. by rewrite Hperm. }
  assert (forall kv, kv ∈ sort_KVPairs (filter (matches pattern) kvs) <->
            (exists k, m s !! k = Some kv) /\ matches pattern kv) as Hin.
  { intros kv. rewrite Hp, list_elem_of_filter, elem_of_range_order. tauto. }
  split; [done|]. split; [apply sort_KVPairs_sorted|]. split; [done|].
  intros Hplain kv [_ Hm]%Hin. by apply Match_plain_separators.
Qed.

Lemma GetAll_sorted_matches_witness :
  StronglySorted kv_le
    [mkKVPair "/a/1" "one"; mkKVPair "/a/2" "two"; mkKVPair "/a/3" "three"].
Proof.
  refine (proj1 (proj2 (GetAll_sorted_matches
    (Set_ (Set_ (Set_ New "/a/2" "two") "/a/1" "one") "/a/3" "three")
    "/a/*" _ _ (reflexivity _) _))).
  vm_compute. reflexivity.
Defined.

(** The failures of [GetAll] do not depend on the order of the visit. *)
Lemma GetAll_on_bad kvs pattern :
  Exists (bad_on pattern) kvs <->
  GetAll_on kvs pattern = (None, Some ErrBadPattern).
Proof.
  destruct (GetAll_on_cases kvs pattern)
    as [(Hex & e & kv & _ & He & H)|[(Hall & _ & H)|(Hall & _ & H)]];
    rewrite H; split; try done.
  - intros _. by apply Match_error in He as ->.
  - intros Hex. exfalso. apply Exists_exists in Hex as (kv & Hin & Hbad).
    rewrite Forall_forall in Hall. by apply (Hall kv).
  - intros Hex. exfalso. apply Exists_exists in Hex as (kv & Hin & Hbad).
    rewrite Forall_forall in Hall. by apply (Hall kv).
Qed.

Lemma GetAll_on_nomatch kvs pattern :
  (Forall (fun kv => ~ bad_on pattern kv) kvs /\
   Forall (fun kv => ~ matches pattern kv) kvs) <->
  GetAll_on kvs pattern = (None, Some ErrNoMatch).
Proof.
  destruct (GetAll_on_cases kvs pattern)
    as [(Hex & e & kv & _ & He & H)|[(Hall & Hnil & H)|(Hall & Hne & H)]];
    rewrite H; split; try done.
  - intros [Hall _]. exfalso. apply Exists_exists in Hex as (kv' & Hin & Hbad).
    rewrite Forall_forall in Hall. by apply (Hall kv').
  - apply Match_error in He as ->. done.
  - intros _. split; [done|]. apply Forall_forall. intros kv Hin Hm.
    assert (kv ∈ filter (matches pattern) kvs) as Hf
      by (by apply list_elem_of_filter).
    rewrite Hnil in Hf. by apply elem_of_nil in Hf.
  - intros [_ Hno]. exfalso. apply Hne.
    destruct (filter (matches pattern) kvs) as [|kv l] eqn:Hf; [done|].
    assert (kv ∈ filter (matches pattern) kvs) as Hin by (rewrite Hf; by left).
    apply list_elem_of_filter in Hin as [Hm Hin].
    rewrite Forall_forall in Hno. by destruct (Hno kv Hin).
Qed.

(** On a store that keeps [map[k].key == k] two records with the same
    key are the same record, so the sorted slice is unique: neither the
    order of the visit nor the choice of the (unstable) sort shows in what
    [GetAll] returns. *)
Lemma same_key_same_record (s : Store) (kv1 kv2 : KVPair) :
  keys_consistent s ->
  kv1 ∈ range_order s -> kv2 ∈ range_order s -> Key kv1 = Key kv2 -> kv1 = kv2.
Proof.
  intros Hinv [k1 H1]%elem_of_range_order [k2 H2]%elem_of_range_order Hkey.
  rewrite (Hinv _ _ H1), (Hinv _ _ H2) in Hkey. congruence.
Qed.

Lemma GetAll_order_independent (s : Store) (pattern : string) (kvs : KVPairs) :
  keys_consistent s ->
  kvs ≡ₚ range_order s ->
  GetAll_on kvs pattern = GetAll s pattern.
Proof.
  intros Hinv Hperm. unfold GetAll.
  destruct (GetAll_on_cases kvs pattern)
    as [(Hex & e & kv & _ & He & H)|[(Hall & Hnil & H)|(Hall & Hne & H)]];
    rewrite H; symmetry.
  - apply Match_error in He as ->. apply GetAll_on_bad. by rewrite <- Hperm.
  - apply GetAll_on_nomatch. rewrite <- Hperm. split; [done|].
    apply Forall_forall. intros kv Hin Hm.
    assert (kv ∈ filter (matches pattern) kvs) as Hf
      by (by apply list_elem_of_filter).
    rewrite Hnil in Hf. by apply elem_of_nil in Hf.
  - destruct (GetAll_on_cases (range_order s) pattern)
      as [(Hex & _)|[(_ & Hnil & _)|(_ & _ & H')]].
    + exfalso. rewrite <- Hperm in Hex.
      apply Exists_exists in Hex as (kv & Hin & Hbad).
      rewrite Forall_forall in Hall. by apply (Hall kv).
    + exfalso. apply Hne. apply Permutation_nil_r. rewrite <- Hnil.
      by rewrite Hperm.
    + rewrite H'. do 2 f_equal.
      apply (StronglySorted_unique_strong kv_le);
        [|apply sort_KVPairs_sorted|apply sort_KVPairs_sorted|].
      * intros kv1 kv2 Hin1 Hin2 Hle1 Hle2.
        rewrite sort_KVPairs_perm in Hin1, Hin2.
        apply list_elem_of_filter in Hin1 as [_ Hin1].
        apply list_elem_of_filter in Hin2 as [_ Hin2].
        rewrite Hperm in Hin2.
        apply (same_key_same_record s); [done..|].
        unfold kv_le in Hle1, Hle2. by apply (anti_symm String.le).
      * rewrite !sort_KVPairs_perm. by rewrite Hperm.
Qed.

(** C3 as stated fails: on the empty store the loop of [GetAll] never
    calls the matcher, so the malformed pattern ["["], which the matcher
    rejects on a name, yields [ErrNoMatch] and not [ErrBadPattern]. *)
Lemma GetAll_empty_store_open_class :
  snd (Match "[" "/a") = Some ErrBadPattern /\
  GetAll New "[" = (None, Some ErrNoMatch) /\
  snd (GetAll New "[") <> Some ErrBadPattern.
Proof. repeat split. vm_compute. discriminate. Qed.

(** C3, amended: whatever the order of the visit, [GetAll(pattern)] fails
    with [ErrBadPattern] exactly when the matcher reports the pattern
    malformed on the key of some entry of the store (never on the empty
    store), and the scan stops at the first such entry; it fails with
    [ErrNoMatch] exactly when the matcher reports no error and accepts no
    key, also on a store that is not empty; it has no other failure, and
    without failure it returns a slice that is not empty.  On a store that
    is not empty [GetAll("[")] fails with [ErrBadPattern]. *)
Theorem GetAll_failures (s : Store) (pattern : string) (kvs : KVPairs) :
  kvs ≡ₚ range_order s ->
  ((exists kv, kv ∈ range_order s /\ bad_on pattern kv) <->
     GetAll_on kvs pattern = (None, Some ErrBadPattern)) /\
  (forall kv rest acc, bad_on pattern kv ->
     GetAll_scan pattern (kv :: rest) acc = Err ErrBadPattern) /\
  (((forall kv, kv ∈ range_order s -> ~ bad_on pattern kv) /\
    (forall kv, kv ∈ range_order s -> ~ matches pattern kv)) <->
     GetAll_on kvs pattern = (None, Some ErrNoMatch)) /\
  (forall e, snd (GetAll_on kvs pattern) = Some e ->
     e = ErrBadPattern \/ e = ErrNoMatch) /\
  (snd (GetAll_on kvs pattern) = None ->
     exists ks, fst (GetAll_on kvs pattern) = Some ks /\ ks <> []) /\
  (range_order s <> [] -> GetAll_on kvs "[" = (None, Some ErrBadPattern)).
Proof.
  intros Hperm. split; [|split; [|split; [|split; [|split]]]].
  - rewrite <- GetAll_on_bad, Exists_exists. setoid_rewrite Hperm. done.
  - intros kv rest acc Hbad. simpl. unfold bad_on in Hbad.
    destruct (Match pattern (Key kv)) as [b [e|]] eqn:HM; [|done].
    assert (e = ErrBadPattern) as -> by (apply (Match_error pattern (Key kv)); by rewrite HM).
    by destruct b.
  - rewrite <- GetAll_on_nomatch, !Forall_forall. setoid_rewrite Hperm. done.
  - intros e He.
    destruct (GetAll_on_cases kvs pattern)
      as [(_ & e' & kv & _ & He' & H)|[(_ & _ & H)|(_ & _ & H)]];
      rewrite H in He; simpl in He; try done.
    + injection He as <-. left. by apply Match_error in He'.
    + injection He as <-. by right.
  - intros Hnone.
    destruct (GetAll_on_cases kvs pattern)
      as [(_ & e' & kv & _ & He' & H)|[(_ & _ & H)|(_ & Hne & H)]];
      rewrite H in Hnone |- *; simpl in Hnone; try done.
    eexists. split; [done|]. intros Hnil. apply Hne, Permutation_nil_r.
    rewrite <- Hnil. symmetry. apply sort_KVPairs_perm.
  - intros Hne. apply GetAll_on_bad.
    destruct kvs as [|kv kvs'].
    { symmetry in Hperm. by apply Permutation_nil_r in Hperm. }
    apply Exists_cons_hd. unfold bad_on. by rewrite Match_open_class.
Qed.

Lemma GetAll_failures_witness :
  GetAll_on (range_order (Set_ New "/a/1" "one")) "[" = (None, Some ErrBadPattern).
Proof.
  refine (proj2 (proj2 (proj2 (proj2 (proj2 (GetAll_failures
    (Set_ New "/a/1" "one") "[" _ (reflexivity _)))))) _).
  vm_compute. discriminate.
Defined.

(** ** [GetAllValues] *)

(** C8: [GetAllValues(pattern)] fails exactly when [GetAll(pattern)] fails
    and with the same error; on success it returns the values of the
    records of [GetAll] in their order, sorted by key; on failure it returns
    the empty slice, which is not [nil], with the error. *)
Theorem GetAllValues_follows_GetAll (s : Store) (pattern : string) :
  snd (GetAllValues s pattern) = snd (GetAll s pattern) /\
  match GetAll s pattern with
  | (Some ks, None) => GetAllValues s pattern = (Some (Value <$> ks), None)
  | (None, None) => False
  | (_, Some e) => GetAllValues s pattern = (Some [], Some e)
  end.
Proof.
  unfold GetAllValues, GetAllValues_on, GetAll.
  destruct (GetAll_on_cases (range_order s) pattern)
    as [(_ & e' & kv & _ & He' & H)|[(_ & _ & H)|(_ & _ & H)]]; rewrite H; done.
Qed.

(** ** The string steps of [List] and [ListDir] *)

Lemma HasPrefix_append p r : HasPrefix (p ++ r) p = true.
Proof.
  induction p as [|c p IH]; [by destruct r|]. rewrite append_String. simpl.
  by rewrite Ascii.eqb_refl, IH.
Qed.

Lemma HasPrefix_inv s p :
  HasPrefix s p = true -> s = p ++ drop_bytes (String.length p) s.
Proof.
  revert s. induction p as [|c p IH]; intros s; [by destruct s|].
  destruct s as [|c0 s]; simpl; [done|].
  intros [->%Ascii.eqb_eq Hp]%andb_true_iff.
  rewrite append_String. f_equal. by apply IH.
Qed.

Lemma HasPrefix_refl p : HasPrefix p p = true.
Proof. induction p as [|c p IH]; [done|]. simpl. by rewrite Ascii.eqb_refl, IH. Qed.

Lemma drop_bytes_all p : drop_bytes (String.length p) p = "".
Proof. induction p as [|c p IH]; [done|]. simpl. apply IH. Qed.

Lemma append_empty_r a : (a ++ "") = a.
Proof. induction a as [|c a IH]; [done|]. rewrite append_String. by rewrite IH. Qed.

(** The stripped key is empty exactly for the key equal to the path. *)
Lemma TrimPrefix_empty key path :
  HasPrefix key path = true ->
  (slice_from_1 (TrimPrefix key path) = None <-> key = path).
Proof.
  intros Hp. unfold TrimPrefix. rewrite Hp. split.
  - intros Hnone. apply HasPrefix_inv in Hp.
    destruct (drop_bytes (String.length path) key); [|done].
    by rewrite append_empty_r in Hp.
  - intros ->. by rewrite drop_bytes_all.
Qed.

Lemma TrimPrefix_slice key path rest :
  HasPrefix key path = true ->
  slice_from_1 (TrimPrefix key path) = Some rest ->
  rest = remainder path key.
Proof.
  intros Hp. unfold TrimPrefix, remainder. rewrite Hp.
  destruct (drop_bytes (String.length path) key); simpl; congruence.
Qed.

Lemma cut_slash_spec s :
  match cut_slash s with
  | Some (a, b) => a = before_slash s /\ Contains_slash s = true
  | None => before_slash s = s /\ Contains_slash s = false
  end.
Proof.
  induction s as [|c s IH]; simpl; [done|].
  destruct (Ascii.eqb c "/"); simpl; [done|].
  destruct (cut_slash s) as [[a b]|]; destruct IH as [? ?]; split; congruence.
Qed.

(** [items[0]] is the bytes before the first separator, and [items] has a
    second element exactly when there is a separator. *)
Lemma SplitN_first rest :
  first_item (SplitN_slash_2 rest) = before_slash rest.
Proof.
  unfold SplitN_slash_2. pose proof (cut_slash_spec rest) as H.
  destruct (cut_slash rest) as [[a b]|]; simpl; by destruct H.
Qed.

Lemma SplitN_length rest :
  (length (SplitN_slash_2 rest) <? 2)%nat = negb (Contains_slash rest).
Proof.
  unfold SplitN_slash_2. pose proof (cut_slash_spec rest) as H.
  destruct (cut_slash rest) as [[a b]|]; destruct H as [_ ->]; done.
Qed.

(** ** The loops of [List] and [ListDir] *)

Lemma List_scan_panics path kvs seen :
  Exists (key_is_path path) kvs -> List_scan path kvs seen = Panics.
Proof.
  intros Hex. revert seen. induction kvs as [|kv kvs IH]; intros seen;
    [by apply Exists_nil in Hex|].
  simpl. destruct (HasPrefix (Key kv) path) eqn:Hp.
  - destruct (slice_from_1 (TrimPrefix (Key kv) path)) as [rest|] eqn:Hs; [|done].
    apply Exists_cons in Hex as [Hkv|Hex]; [|by apply IH].
    apply (TrimPrefix_empty _ _ Hp) in Hkv. congruence.
  - apply Exists_cons in Hex as [Hkv|Hex]; [|by apply IH].
    unfold key_is_path in Hkv. rewrite Hkv, HasPrefix_refl in Hp. done.
Qed.

Lemma List_scan_returns path kvs seen :
  Forall (fun kv => ~ key_is_path path kv) kvs ->
  List_scan path kvs seen =
    Returns (seen ∪ list_to_set
      ((fun kv => first_segment path (Key kv)) <$> filter (under path) kvs)).
Proof.
  intros Hall. revert seen.
  induction Hall as [|kv kvs Hkv _ IH]; intros seen; simpl.
  - f_equal. by rewrite (right_id_L ∅ (∪)).
  - rewrite filter_cons.
    destruct (HasPrefix (Key kv) path) eqn:Hp.
    + rewrite decide_True by done.
      destruct (slice_from_1 (TrimPrefix (Key kv) path)) as [rest|] eqn:Hs.
      * apply (TrimPrefix_slice _ _ _ Hp) in Hs as ->.
        rewrite IH, SplitN_first. f_equal. unfold first_segment.
        rewrite fmap_cons, list_to_set_cons.
        by rewrite (comm_L (∪) _ seen), <- (assoc_L (∪)).
      * by apply (TrimPrefix_empty _ _ Hp) in Hs.
    + rewrite decide_False by (unfold under; congruence). apply IH.
Qed.

Lemma ListDir_scan_panics path kvs seen :
  Exists (key_is_path path) kvs -> ListDir_scan path kvs seen = Panics.
Proof.
  intros Hex. revert seen. induction kvs as [|kv kvs IH]; intros seen;
    [by apply Exists_nil in Hex|].
  simpl. destruct (HasPrefix (Key kv) path) eqn:Hp.
  - destruct (slice_from_1 (TrimPrefix (Key kv) path)) as [rest|] eqn:Hs.
    + apply Exists_cons in Hex as [Hkv|Hex].
      { apply (TrimPrefix_empty _ _ Hp) in Hkv. congruence. }
      destruct (length (SplitN_slash_2 rest) <? 2)%nat; by apply IH.
    + done.
  - apply Exists_cons in Hex as [Hkv|Hex]; [|by apply IH].
    unfold key_is_path in Hkv. rewrite Hkv, HasPrefix_refl in Hp. done.
Qed.

Lemma ListDir_scan_returns path kvs seen :
  Forall (fun kv => ~ key_is_path path kv) kvs ->
  ListDir_scan path kvs seen =
    Returns (seen ∪ list_to_set
      ((fun kv => first_segment path (Key kv)) <$>
         filter (has_child path) (filter (under path) kvs))).
Proof.
  intros Hall. revert seen.
  induction Hall as [|kv kvs Hkv _ IH]; intros seen; simpl.
  - f_equal. by rewrite (right_id_L ∅ (∪)).
  - rewrite filter_cons.
    destruct (HasPrefix (Key kv) path) eqn:Hp.
    + rewrite decide_True by done.
      destruct (slice_from_1 (TrimPrefix (Key kv) path)) as [rest|] eqn:Hs.
      * apply (TrimPrefix_slice _ _ _ Hp) in Hs as ->.
        rewrite SplitN_length, SplitN_first, filter_cons.
        destruct (Contains_slash (remainder path (Key kv))) eqn:Hc; simpl negb;
          cbv iota.
        -- rewrite decide_True by done. rewrite IH. f_equal.
           unfold first_segment. rewrite fmap_cons, list_to_set_cons.
           by rewrite (comm_L (∪) _ seen), <- (assoc_L (∪)).
        -- rewrite decide_False by (unfold has_child; congruence). apply IH.
      * by apply (TrimPrefix_empty _ _ Hp) in Hs.
    + rewrite decide_False by (unfold under; congruence). apply IH.
Qed.

(** The keys of the set, sorted, are the distinct segments, sorted: the
    order in which the entries were visited leaves no trace. *)
Lemma sorted_keys_segments path (kvs kvs' : list KVPair) :
  kvs ≡ₚ kvs' ->
  sorted_keys (list_to_set ((fun kv => first_segment path (Key kv)) <$> kvs))
  = segments_of path kvs'.
Proof.
  intros Hperm. unfold sorted_keys, segments_of.
  apply (StronglySorted_unique String.le);
    [apply sort_Strings_sorted|apply sort_Strings_sorted|].
  rewrite !sort_Strings_perm. apply NoDup_Permutation.
  - apply NoDup_elements.
  - apply NoDup_remove_dups.
  - intros x. rewrite elem_of_elements, elem_of_list_to_set, elem_of_remove_dups.
    by rewrite Hperm.
Qed.

Lemma segments_of_spec path kvs x :
  x ∈ segments_of path kvs <->
  exists kv, kv ∈ kvs /\ first_segment path (Key kv) = x.
Proof.
  unfold segments_of. rewrite sort_Strings_perm, elem_of_remove_dups,
    list_elem_of_fmap. split; intros (kv & H1 & H2); exists kv; auto.
Qed.

Lemma segments_of_sorted path kvs :
  StronglySorted String.le (segments_of path kvs) /\ NoDup (segments_of path kvs).
Proof.
  unfold segments_of. split; [apply sort_Strings_sorted|].
  rewrite sort_Strings_perm. apply NoDup_remove_dups.
Qed.

(** What [List] does: it panics when some key equals the path, and
    returns the sorted distinct first segments otherwise. *)
Lemma List_on_cases (s : Store) path kvs :
  kvs ≡ₚ range_order s ->
  List_on kvs path =
    if decide (Exists (key_is_path path) (range_order s)) then Panics
    else Returns (List_spec s path).
Proof.
  intros Hperm. unfold List_on, List_spec. case_decide as Hex.
  - rewrite <- Hperm in Hex. by rewrite List_scan_panics.
  - rewrite <- Hperm in Hex. apply not_Exists_Forall in Hex; [|intros kv; apply _].
    rewrite List_scan_returns by done. f_equal.
    rewrite (left_id_L ∅ (∪)). apply sorted_keys_segments. by rewrite Hperm.
Qed.

Lemma ListDir_on_cases (s : Store) path kvs :
  kvs ≡ₚ range_order s ->
  ListDir_on kvs path =
    if decide (Exists (key_is_path path) (range_order s)) then Panics
    else Returns (ListDir_spec s path).
Proof.
  intros Hperm. unfold ListDir_on, ListDir_spec. case_decide as Hex.
  - rewrite <- Hperm in Hex. by rewrite ListDir_scan_panics.
  - rewrite <- Hperm in Hex. apply not_Exists_Forall in Hex; [|intros kv; apply _].
    rewrite ListDir_scan_returns by done. f_equal.
    rewrite (left_id_L ∅ (∪)). apply sorted_keys_segments. by rewrite Hperm.
Qed.

Lemma key_is_path_Exists (s : Store) path :
  Exists (key_is_path path) (range_order s) <->
  exists kv, kv ∈ range_order s /\ Key kv = path.
Proof. apply Exists_exists. Qed.

Lemma key_is_path_none (s : Store) path :
  (forall kv, kv ∈ range_order s -> Key kv <> path) ->
  ~ Exists (key_is_path path) (range_order s).
Proof. intros Hno (kv & Hin & Hkv)%Exists_exists. by apply (Hno kv). Qed.

(** With no key under the path the result is the empty slice. *)
Lemma List_no_prefix (s : Store) path kvs :
  kvs ≡ₚ range_order s ->
  (forall kv, kv ∈ range_order s -> HasPrefix (Key kv) path = false) ->
  List_on kvs path = Returns [] /\ ListDir_on kvs path = Returns [].
Proof.
  intros Hperm Hno.
  assert (~ Exists (key_is_path path) (range_order s)) as Hex.
  { apply key_is_path_none. intros kv Hin Heq.
    specialize (Hno kv Hin). by rewrite Heq, HasPrefix_refl in Hno. }
  assert (filter (under path) (range_order s) = []) as Hnil.
  { destruct (filter (under path) (range_order s)) as [|kv l] eqn:Hf; [done|].
    assert (kv ∈ filter (under path) (range_order s)) as Hin
      by (rewrite Hf; by left).
    apply list_elem_of_filter in Hin as [Hu Hin]. unfold under in Hu.
    rewrite (Hno kv Hin) in Hu. done. }
  rewrite (List_on_cases s), (ListDir_on_cases s) by done.
  rewrite !decide_False by done. unfold List_spec, ListDir_spec.
  rewrite Hnil. done.
Qed.

(** C4: [List(path)] returns the distinct first segments of the keys that
    have [path] as a literal prefix (the prefix stripped, one byte skipped,
    cut before the next separator), sorted ascending, whenever no key
    equals the path; when a key equals the path the stripped key is empty
    and [strippedKey[1:]] panics, so that [List] returns nothing. *)
Theorem List_segments_or_panic (s : Store) (path : string) (kvs : KVPairs) :
  kvs ≡ₚ range_order s ->
  ((exists kv, kv ∈ range_order s /\ Key kv = path) ->
     List_on kvs path = Panics) /\
  ((forall kv, kv ∈ range_order s -> Key kv <> path) ->
     List_on kvs path = Returns (List_spec s path) /\
     StronglySorted String.le (List_spec s path) /\
     NoDup (List_spec s path) /\
     forall x, x ∈ List_spec s path <->
       exists kv, kv ∈ range_order s /\ HasPrefix (Key kv) path = true /\
         first_segment path (Key kv) = x).
Proof.
  intros Hperm. rewrite (List_on_cases s) by done. split.
  - intros Hex%key_is_path_Exists. by rewrite decide_True.
  - intros Hno%key_is_path_none. rewrite decide_False by done.
    split; [done|]. unfold List_spec.
    split; [apply segments_of_sorted|]. split; [apply segments_of_sorted|].
    intros x. rewrite segments_of_spec. setoid_rewrite list_elem_of_filter.
    unfold under. split.
    + intros (kv & [Hp Hin] & Hseg). by exists kv.
    + intros (kv & Hin & Hp & Hseg). by exists kv.
Qed.

Lemma List_segments_or_panic_witness :
  List_on (range_order (Set_ (Set_ New "/app/db/host" "h") "/app" "x")) "/app"
  = Panics.
Proof.
  refine (proj1 (List_segments_or_panic
    (Set_ (Set_ New "/app/db/host" "h") "/app" "x") "/app" _ (reflexivity _)) _).
  exists (mkKVPair "/app" "x"). split; [|reflexivity].
  apply elem_of_range_order. exists "/app". reflexivity.
Defined.

(** C5: [List] and [ListDir] do fail: on a store that holds a key equal to
    the path, both end in the run-time panic of [strippedKey[1:]]. *)
Theorem List_ListDir_panic :
  List (Set_ New "/app" "x") "/app" = Panics /\
  ListDir (Set_ New "/app" "x") "/app" = Panics.
Proof. split; reflexivity. Qed.

(** C6: [ListDir(path)] returns, sorted ascending and without duplicates,
    the first segments of the keys under the path whose remainder holds a
    further separator, all of them elements of [List(path)], whenever no
    key equals the path; when a key equals the path it panics as [List]
    does. *)
Theorem ListDir_children_or_panic (s : Store) (path : string) (kvs : KVPairs) :
  kvs ≡ₚ range_order s ->
  ((exists kv, kv ∈ range_order s /\ Key kv = path) ->
     ListDir_on kvs path = Panics) /\
  ((forall kv, kv ∈ range_order s -> Key kv <> path) ->
     ListDir_on kvs path = Returns (ListDir_spec s path) /\
     List_on kvs path = Returns (List_spec s path) /\
     StronglySorted String.le (ListDir_spec s path) /\
     NoDup (ListDir_spec s path) /\
     (forall x, x ∈ ListDir_spec s path <->
        exists kv, kv ∈ range_order s /\ HasPrefix (Key kv) path = true /\
          Contains_slash (remainder path (Key kv)) = true /\
          first_segment path (Key kv) = x) /\
     (forall x, x ∈ ListDir_spec s path -> x ∈ List_spec s path)).
Proof.
  intros Hperm. rewrite (ListDir_on_cases s), (List_on_cases s) by done. split.
  - intros Hex%key_is_path_Exists. by rewrite decide_True.
  - intros Hno%key_is_path_none. rewrite !decide_False by done.
    assert (forall x, x ∈ ListDir_spec s path <->
      exists kv, kv ∈ range_order s /\ HasPrefix (Key kv) path = true /\
        Contains_slash (remainder path (Key kv)) = true /\
        first_segment path (Key kv) = x) as Hin.
    { intros x. unfold ListDir_spec. rewrite segments_of_spec.
      repeat setoid_rewrite list_elem_of_filter. unfold under, has_child.
      split.
      - intros (kv & [Hc [Hp Hkv]] & Hseg). by exists kv.
      - intros (kv & Hkv & Hp & Hc & Hseg). by exists kv. }
    split; [done|]. split; [done|]. unfold ListDir_spec at 1 2.
    split; [apply segments_of_sorted|]. split; [apply segments_of_sorted|].
    split; [done|].
    intros x (kv & Hkv & Hp & _ & Hseg)%Hin. unfold List_spec.
    apply segments_of_spec. exists kv. split; [|done].
    by apply list_elem_of_filter.
Qed.

Lemma ListDir_children_or_panic_witness :
  ListDir_on (range_order (Set_ (Set_ New "/app/db/host" "h") "/app/db" "x"))
    "/app/db" = Panics.
Proof.
  refine (proj1 (ListDir_children_or_panic
    (Set_ (Set_ New "/app/db/host" "h") "/app/db" "x") "/app/db" _
    (reflexivity _)) _).
  exists (mkKVPair "/app/db" "x"). split; [|reflexivity].
  apply elem_of_range_order. exists "/app/db". reflexivity.
Defined.

(** The examples of the specification. *)
Example List_examples :
  let app := Set_ (Set_ (Set_ New "/app/db/host" "h") "/app/db/port" "p")
               "/app/cache/ttl" "t" in
  List app "/app" = Returns ["cache"; "db"] /\
  ListDir app "/app" = Returns ["cache"; "db"] /\
  List (Set_ app "/app/standalone" "s") "/app"
    = Returns ["cache"; "db"; "standalone"] /\
  ListDir (Set_ app "/app/standalone" "s") "/app" = Returns ["cache"; "db"] /\
  List app "/nothing" = Returns [] /\
  List app "/ap" = Returns [""] /\
  List (Set_ New "/ab/c" "1") "/a" = Returns [""] /\
  List (Set_ New "/abc/d" "1") "/a" = Returns ["c"].
Proof. repeat split; vm_compute; reflexivity. Qed.

(** ** Concurrent calls *)
Module ConcFacts.
Import Conc.

Lemma init_lookup (s : Store) (cs : list call) i c :
  cs !! i = Some c -> calls (init s cs) !! i = Some (c, Calling).
Proof. intros H. unfold init. simpl. by rewrite list_lookup_fmap, H. Qed.

(** The two steps that take a call from its entry to the access of the
    map, with the receiver as declared: the copy of the store brings a
    mutex of its own, at a fresh address, in the state of the caller's. *)
Lemma enter_by_value st i c :
  calls st !! i = Some (c, Calling) ->
  locks st !! 0 = Some unlocked ->
  exists st',
    rtc (step declared) st st' /\
    calls st' = <[i := (c, AtMap (length (locks st)))]> (calls st) /\
    locks st' !! 0 = Some unlocked /\
    shared st' = shared st.
Proof.
  intros Hi H0.
  set (l := length (locks st)).
  set (st1 := mkState (locks st ++ [unlocked]) (shared st)
                (<[i := (c, AtLock l)]> (calls st))).
  assert (step declared st st1) as Hstep1 by (by apply step_copy).
  assert (calls st1 !! i = Some (c, AtLock l)) as Hi1.
  { simpl. apply list_lookup_insert_eq. by eapply lookup_lt_Some. }
  assert (locks st1 !! l = Some unlocked) as Hl1.
  { simpl. unfold l. by rewrite lookup_app_r, Nat.sub_diag by lia. }
  assert (0 < l) as Hpos by (unfold l; by eapply lookup_lt_Some).
  destruct (writes c) eqn:Hw.
  - eexists. split.
    { eapply rtc_l; [exact Hstep1|]. eapply rtc_l; [|apply rtc_refl].
      by apply (step_Lock declared st1 i c l). }
    simpl. split; [by rewrite list_insert_insert_eq|]. split; [|done].
    rewrite list_lookup_insert_ne by lia. by rewrite lookup_app_l by lia.
  - eexists. split.
    { eapply rtc_l; [exact Hstep1|]. eapply rtc_l; [|apply rtc_refl].
      by apply (step_RLock declared st1 i c l 0). }
    simpl. split; [by rewrite list_insert_insert_eq|]. split; [|done].
    rewrite list_lookup_insert_ne by lia. by rewrite lookup_app_l by lia.
Qed.

(** C10: with the receiver [(s Store)] that store.go declares, the
    lock does not order the calls: whenever a [Set] or [Del] runs
    beside any other call on the same store, there is an interleaving
    in which both stand before their access to the shared map at once,
    each holding the mutex of its own copy: a data race. *)
Theorem race_by_value (s : Store) (cs : list call) (i j : nat) (c1 c2 : call) :
  i <> j ->
  cs !! i = Some c1 ->
  cs !! j = Some c2 ->
  writes c1 = true ->
  exists st, rtc (step declared) (init s cs) st /\ race st.
Proof.
  intros Hij Hi Hj Hw.
  destruct (enter_by_value (init s cs) i c1) as (st1 & Hrun1 & Hc1 & Hl1 & _);
    [by apply init_lookup|done|].
  destruct (enter_by_value st1 j c2) as (st2 & Hrun2 & Hc2 & _ & _).
  { rewrite Hc1, list_lookup_insert_ne by done. by apply init_lookup. }
  { done. }
  exists st2. split; [by etrans|].
  exists i, j, c1, c2, (length (locks (init s cs))), (length (locks st1)).
  split; [done|]. rewrite Hc2, Hc1. split; [|split; [|done]].
  - rewrite list_lookup_insert_ne by done. apply list_lookup_insert_eq.
    apply lookup_lt_Some with (c1, Calling). by apply init_lookup.
  - apply list_lookup_insert_eq. rewrite length_insert.
    apply lookup_lt_Some with (c2, Calling). by apply init_lookup.
Qed.

Lemma race_by_value_witness :
  exists st,
    rtc (step declared) (init New [CallSet "/a" "1"; CallGet "/a"]) st /\
    race st.
Proof.
  apply (race_by_value New [CallSet "/a" "1"; CallGet "/a"] 0 1
           (CallSet "/a" "1") (CallGet "/a")); [lia|reflexivity..].
Defined.

(** *** The same calls through a pointer receiver

    The lock as such is sound: were the methods declared on [*Store],
    every call would lock the one mutex of the caller's store and no
    interleaving would reach a race.  The race above comes from the
    copy of the mutex alone. *)

Lemma holders_insert w ts i t t' :
  ts !! i = Some t ->
  holders w (<[i := t']> ts) + holds w t = holders w ts + holds w t'.
Proof.
  unfold holders. revert i. induction ts as [|t0 ts IH]; intros [|i] Hi;
    simplify_eq/=; [lia|].
  specialize (IH i Hi). lia.
Qed.

Lemma holders_two w ts i j a b :
  i <> j -> ts !! i = Some a -> ts !! j = Some b ->
  holds w a + holds w b <= holders w ts.
Proof.
  intros Hij Hi Hj.
  pose proof (holders_insert w ts i a (a.1, Calling) Hi) as H1.
  assert (<[i := (a.1, Calling)]> ts !! j = Some b) as Hj'
    by (by rewrite list_lookup_insert_ne).
  pose proof (holders_insert w _ j b (b.1, Calling) Hj') as H2.
  simpl in H1, H2. lia.
Qed.

Lemma lock_inv_init (s : Store) (cs : list call) : lock_inv (init s cs).
Proof.
  exists unlocked. split; [done|]. simpl. split.
  - apply Forall_fmap, Forall_true. done.
  - unfold holders. rewrite <- !list_fmap_compose.
    split; induction cs as [|c cs IH]; simpl; auto.
Qed.

Ltac count_holders Hi new :=
  let Ht := fresh "Ht" in let Hf := fresh "Hf" in
  pose proof (holders_insert true _ _ _ new Hi) as Ht;
  pose proof (holders_insert false _ _ _ new Hi) as Hf;
  simpl in Ht, Hf.

Lemma lock_inv_step st st' :
  lock_inv st -> step ByPointer st st' -> lock_inv st'.
Proof.
  intros (mu & Hlocks & Hzero & Hmu) Hstep.
  assert (forall i c p, calls st !! i = Some (c, p) -> at_zero (c, p)) as Hat.
  { intros i c p Hi. rewrite Forall_forall in Hzero. apply Hzero.
    by eapply list_elem_of_lookup_2. }
  inversion Hstep as
    [? i c mu0 Hr Hi H0|? i c Hr Hi|? i c l Hi Hw Hl|? i c l n Hi Hw Hl
    |? i c l Hi|? i c l Hi Hw|? i c l n Hi Hw Hl]; subst; try done;
    try (pose proof (Hat _ _ _ Hi) as Hz; unfold at_zero in Hz; simpl in Hz;
         subst l);
    unfold lock_inv; simpl.
  - exists mu. split; [done|]. split; [by apply Forall_insert|].
    count_holders Hi (c, AtLock 0).
    revert Hmu. destruct (writer mu); intros Hmu; lia.
  - rewrite Hlocks in Hl |- *. simplify_eq/=.
    exists (mkRWMutex true 0). split; [done|].
    split; [by apply Forall_insert|]. simpl in *.
    count_holders Hi (c, AtMap 0). rewrite Hw in *. simpl in *. lia.
  - rewrite Hlocks in Hl |- *. simplify_eq/=.
    exists (mkRWMutex false (S n)). split; [done|].
    split; [by apply Forall_insert|]. simpl in *.
    count_holders Hi (c, AtMap 0). rewrite Hw in *. simpl in *. lia.
  - exists mu. split; [done|]. split; [by apply Forall_insert|].
    count_holders Hi (c, AtUnlock 0).
    revert Hmu. destruct (writer mu); intros Hmu; lia.
  - rewrite Hlocks. exists unlocked. split; [done|].
    split; [by apply Forall_insert|]. simpl.
    count_holders Hi (c, Returned). rewrite Hw in *. simpl in *.
    revert Hmu. destruct (writer mu); intros Hmu; lia.
  - rewrite Hlocks in Hl |- *. simplify_eq/=.
    exists (mkRWMutex false n). split; [done|].
    split; [by apply Forall_insert|]. simpl in *.
    count_holders Hi (c, Returned). rewrite Hw in *. simpl in *. lia.
Qed.

Lemma lock_inv_no_race st : lock_inv st -> ~ race st.
Proof.
  intros (mu & _ & _ & Hmu) (i & j & c1 & c2 & l1 & l2 & Hij & Hi & Hj & Hw).
  pose proof (holders_two true _ i j _ _ Hij Hi Hj) as Ht.
  pose proof (holders_two false _ i j _ _ Hij Hi Hj) as Hf.
  simpl in Ht, Hf. rewrite Hw in Ht, Hf. simpl in Ht, Hf.
  revert Hmu. destruct (writer mu); intros Hmu;
    destruct (writes c2); simpl in *; lia.
Qed.

(** No interleaving of calls that share the mutex reaches a race. *)
Lemma no_race_by_pointer (s : Store) (cs : list call) st :
  rtc (step ByPointer) (init s cs) st -> ~ race st.
Proof.
  intros Hrun. apply lock_inv_no_race.
  revert st Hrun. apply rtc_ind_r; [apply lock_inv_init|].
  intros st st' _ Hstep Hinv. by eapply lock_inv_step.
Qed.

End ConcFacts.

(** * Further properties of the store *)

(** ** Reads after writes *)

(** X1: [GetValue(k)] returns [v] and no error right after [Set(k, v)],
    and the empty string with [ErrNotExist] right after [Del(k)] and on a
    new store. *)
Theorem GetValue_round_trip (s : Store) (k v : string) :
  GetValue (Set_ s k v) k = (v, None) /\
  GetValue (Del s k) k = ("", Some ErrNotExist) /\
  GetValue New k = ("", Some ErrNotExist).
Proof.
  unfold GetValue. split; [|split].
  - by rewrite (Get_Some _ k (mkKVPair k v)) by apply lookup_insert_eq.
  - by rewrite Get_None by apply lookup_delete_eq.
  - by rewrite Get_None by apply lookup_empty.
Qed.

(** X2: a [Set] or a [Del] of one key leaves what [Get] and [GetValue]
    return for every other key as it was. *)
Theorem Get_other_key (s : Store) (k k' v : string) :
  k <> k' ->
  Get (Set_ s k v) k' = Get s k' /\
  Get (Del s k) k' = Get s k' /\
  GetValue (Set_ s k v) k' = GetValue s k' /\
  GetValue (Del s k) k' = GetValue s k'.
Proof.
  intros Hne. unfold GetValue, Get. simpl.
  rewrite lookup_insert_ne, lookup_delete_ne by done. done.
Qed.

Lemma Get_other_key_witness :
  Get (Set_ (Set_ New "/a" "1") "/b" "2") "/a" = Get (Set_ New "/a" "1") "/a".
Proof.
  apply (Get_other_key (Set_ New "/a" "1") "/b" "/a" "2"). discriminate.
Defined.

(** X3: the last write of a key wins: a second [Set] replaces the first,
    a [Del] undoes a [Set], and a [Set] after a [Del] is the [Set] alone. *)
Theorem last_write_wins (s : Store) (k v1 v2 : string) :
  Set_ (Set_ s k v1) k v2 = Set_ s k v2 /\
  Del (Set_ s k v1) k = Del s k /\
  Set_ (Del s k) k v2 = Set_ s k v2.
Proof.
  unfold Set_, Del. simpl. split; [|split]; f_equal.
  - apply insert_insert_eq.
  - apply delete_insert_eq.
  - apply insert_delete_eq.
Qed.

(** X4: writes of different keys commute: the store they leave does not
    depend on their order. *)
Theorem writes_commute (s : Store) (k1 k2 v1 v2 : string) :
  k1 <> k2 ->
  Set_ (Set_ s k1 v1) k2 v2 = Set_ (Set_ s k2 v2) k1 v1 /\
  Del (Set_ s k1 v1) k2 = Set_ (Del s k2) k1 v1 /\
  Del (Del s k1) k2 = Del (Del s k2) k1.
Proof.
  intros Hne. unfold Set_, Del. simpl. split; [|split]; f_equal.
  - by apply insert_insert_ne.
  - by rewrite delete_insert_ne.
  - apply delete_delete.
Qed.

Lemma writes_commute_witness :
  Set_ (Set_ New "/a" "1") "/b" "2" = Set_ (Set_ New "/b" "2") "/a" "1".
Proof. apply (writes_commute New "/a" "/b" "1" "2"). discriminate. Defined.

Lemma run_cons (o : op) (ops : list op) (s : Store) :
  run (o :: ops) s = run ops (exec o s).
Proof. reflexivity. Qed.

Lemma exec_lookup_other (o : op) (s : Store) (k : string) :
  writes_key k o = false -> m (exec o s) !! k = m s !! k.
Proof.
  destruct o as [k' v|k'| | | | | |]; simpl; try done.
  - intros Hne%String.eqb_neq. by rewrite lookup_insert_ne.
  - intros Hne%String.eqb_neq. by rewrite lookup_delete_ne.
Qed.

Lemma exec_lookup_same (o : op) (s1 s2 : Store) (k : string) :
  writes_key k o = true -> m (exec o s1) !! k = m (exec o s2) !! k.
Proof.
  destruct o as [k' v|k'| | | | | |]; simpl; try done.
  - intros ->%String.eqb_eq. by rewrite !lookup_insert_eq.
  - intros ->%String.eqb_eq. by rewrite !lookup_delete_eq.
Qed.

Lemma run_lookup_writes (k : string) (ops : list op) : forall s1 s2 : Store,
  m s1 !! k = m s2 !! k ->
  m (run ops s1) !! k =
  m (run (filter (fun o => writes_key k o = true) ops) s2) !! k.
Proof.
  induction ops as [|o ops IH]; intros s1 s2 Hagree; [done|].
  rewrite run_cons, filter_cons. destruct (writes_key k o) eqn:Hw.
  - rewrite decide_True by done. rewrite run_cons. apply IH.
    by apply exec_lookup_same.
  - rewrite decide_False by done. apply IH.
    by rewrite exec_lookup_other.
Qed.

(** X5: what [Get(k)] returns after a sequence of operations depends only
    on the operations of the sequence that write [k]: the [Set] and [Del]
    of other keys, and all reads, can be left out. *)
Theorem Get_depends_on_own_writes (s : Store) (k : string) (ops : list op) :
  Get (run ops s) k =
  Get (run (filter (fun o => writes_key k o = true) ops) s) k.
Proof. unfold Get. by rewrite (run_lookup_writes k ops s s). Qed.

(** ** [GetAll] on a store that keeps [map[k].key == k] *)

Lemma range_order_keys (s : Store) :
  keys_consistent s -> Key <$> range_order s = (map_to_list (m s)).*1.
Proof.
  intros Hinv. unfold range_order. rewrite <- list_fmap_compose.
  apply Forall_fmap_ext, Forall_forall.
  intros [k kv] Hin%elem_of_map_to_list. simpl. by apply Hinv.
Qed.

Lemma range_order_NoDup_keys (s : Store) :
  keys_consistent s -> NoDup (Key <$> range_order s).
Proof.
  intros Hinv. rewrite range_order_keys by done. apply NoDup_fst_map_to_list.
Qed.

Lemma NoDup_keys_filter (P : KVPair -> Prop) `{!forall kv, Decision (P kv)}
    (l : list KVPair) :
  NoDup (Key <$> l) -> NoDup (Key <$> filter P l).
Proof.
  induction l as [|kv l IH]; [done|].
  rewrite fmap_cons, NoDup_cons. intros [Hnin Hnd]. rewrite filter_cons.
  destruct (decide (P kv)); [|by apply IH].
  rewrite fmap_cons, NoDup_cons. split; [|by apply IH].
  intros (kv' & Hkey & [_ Hin]%list_elem_of_filter)%list_elem_of_fmap.
  apply Hnin. apply list_elem_of_fmap. by exists kv'.
Qed.

Lemma StronglySorted_distinct_keys (l : list KVPair) :
  StronglySorted kv_le l -> NoDup (Key <$> l) ->
  StronglySorted (fun a b => kv_le a b /\ Key a <> Key b) l.
Proof.
  induction 1 as [|kv l Hsorted IH Hall]; [constructor|].
  rewrite fmap_cons, NoDup_cons. intros [Hnin Hnd].
  constructor; [by apply IH|].
  rewrite Forall_forall in Hall |- *. intros kv' Hin. split; [by apply Hall|].
  intros Heq. apply Hnin. apply list_elem_of_fmap. by exists kv'.
Qed.

(** X6: on a store that keeps the invariant, what [GetAll] returns does
    not depend on the order in which the map is visited. *)
Theorem GetAll_any_order (s : Store) (pattern : string) (kvs : KVPairs) :
  keys_consistent s ->
  kvs ≡ₚ range_order s ->
  GetAll_on kvs pattern = GetAll s pattern.
Proof. apply GetAll_order_independent. Qed.

Lemma GetAll_any_order_witness :
  GetAll_on (reverse (range_order (Set_ (Set_ New "/a/1" "one") "/a/2" "two")))
    "/a/*"
  = GetAll (Set_ (Set_ New "/a/1" "one") "/a/2" "two") "/a/*".
Proof.
  apply (GetAll_any_order (Set_ (Set_ New "/a/1" "one") "/a/2" "two") "/a/*").
  - apply keys_consistent_Set, keys_consistent_Set, keys_consistent_New.
  - apply reverse_Permutation.
Defined.

(** X7: on a store that keeps the invariant, the records that [GetAll]
    returns have pairwise different keys, in strictly ascending order. *)
Theorem GetAll_keys_strictly_ascending (s : Store) (pattern : string)
    (kvs ks : KVPairs) :
  keys_consistent s ->
  kvs ≡ₚ range_order s ->
  GetAll_on kvs pattern = (Some ks, None) ->
  NoDup (Key <$> ks) /\
  StronglySorted (fun a b => kv_le a b /\ Key a <> Key b) ks.
Proof.
  intros Hinv Hperm Hok. apply GetAll_on_ok_inv in Hok as (_ & -> & _).
  assert (NoDup (Key <$> sort_KVPairs (filter (matches pattern) kvs))) as Hnd.
  { rewrite sort_KVPairs_perm, Hperm.
    by apply NoDup_keys_filter, range_order_NoDup_keys. }
  split; [done|].
  apply StronglySorted_distinct_keys; [apply sort_KVPairs_sorted|done].
Qed.

Lemma GetAll_keys_strictly_ascending_witness :
  NoDup (Key <$> [mkKVPair "/a/1" "one"; mkKVPair "/a/2" "two"]).
Proof.
  refine (proj1 (GetAll_keys_strictly_ascending
    (Set_ (Set_ New "/a/2" "two") "/a/1" "one") "/a/*" _ _ _ (reflexivity _) _)).
  - apply keys_consistent_Set, keys_consistent_Set, keys_consistent_New.
  - vm_compute. reflexivity.
Defined.

(** X8: every record that [GetAll] returns is the record that [Get]
    returns for its key, on a store that keeps the invariant. *)
Theorem GetAll_agrees_with_Get (s : Store) (pattern : string)
    (kvs ks : KVPairs) (kv : KVPair) :
  keys_consistent s ->
  kvs ≡ₚ range_order s ->
  GetAll_on kvs pattern = (Some ks, None) ->
  kv ∈ ks ->
  Get s (Key kv) = (kv, None).
Proof.
  intros Hinv Hperm Hok Hin. apply GetAll_on_ok_inv in Hok as (_ & -> & _).
  rewrite sort_KVPairs_perm, Hperm in Hin.
  apply list_elem_of_filter in Hin as [_ [k Hk]%elem_of_range_order].
  apply Get_Some. by rewrite (Hinv _ _ Hk).
Qed.

Lemma GetAll_agrees_with_Get_witness :
  Get (Set_ New "/a/1" "one") "/a/1" = (mkKVPair "/a/1" "one", None).
Proof.
  refine (GetAll_agrees_with_Get (Set_ New "/a/1" "one") "/a/*" _
            [mkKVPair "/a/1" "one"] (mkKVPair "/a/1" "one") _
            (reflexivity _) _ _).
  - apply keys_consistent_Set, keys_consistent_New.
  - vm_compute. reflexivity.
  - by left.
Defined.

(** X9: after [Set(k, v)] a pattern that the matcher accepts for [k]
    finds the new record: [GetAll] does not fail with [ErrNoMatch], and
    when it succeeds [{k, v}] is among the records returned. *)
Theorem GetAll_after_Set (s : Store) (k v pattern : string) (kvs : KVPairs) :
  Match pattern k = (true, None) ->
  kvs ≡ₚ range_order (Set_ s k v) ->
  GetAll_on kvs pattern <> (None, Some ErrNoMatch) /\
  forall ks, GetAll_on kvs pattern = (Some ks, None) -> mkKVPair k v ∈ ks.
Proof.
  intros HM Hperm.
  assert (mkKVPair k v ∈ kvs) as Hin.
  { rewrite Hperm. apply elem_of_range_order. exists k. simpl.
    apply lookup_insert_eq. }
  assert (matches pattern (mkKVPair k v)) as Hm by done.
  split.
  - intros [_ Hno]%GetAll_on_nomatch. rewrite Forall_forall in Hno.
    by apply (Hno _ Hin).
  - intros ks (_ & -> & _)%GetAll_on_ok_inv.
    rewrite sort_KVPairs_perm. by apply list_elem_of_filter.
Qed.

Lemma GetAll_after_Set_witness :
  GetAll (Set_ New "/a/1" "one") "/a/*" <> (None, Some ErrNoMatch).
Proof.
  refine (proj1 (GetAll_after_Set New "/a/1" "one" "/a/*" _ _ (reflexivity _))).
  reflexivity.
Defined.

(** X10: after [Del(k)] no record with the key [k] is returned by
    [GetAll], on a store that keeps the invariant. *)
Theorem GetAll_after_Del (s : Store) (k pattern : string) (kvs ks : KVPairs) :
  keys_consistent s ->
  kvs ≡ₚ range_order (Del s k) ->
  GetAll_on kvs pattern = (Some ks, None) ->
  forall kv, kv ∈ ks -> Key kv <> k.
Proof.
  intros Hinv Hperm (_ & -> & _)%GetAll_on_ok_inv kv Hin.
  rewrite sort_KVPairs_perm, Hperm in Hin.
  apply list_elem_of_filter in Hin as [_ [k' Hk']%elem_of_range_order].
  simpl in Hk'. apply lookup_delete_Some in Hk' as [Hne Hk'].
  by rewrite (Hinv _ _ Hk').
Qed.

Lemma GetAll_after_Del_witness : Key (mkKVPair "/a/2" "two") <> "/a/1".
Proof.
  refine (GetAll_after_Del (Set_ (Set_ New "/a/1" "one") "/a/2" "two") "/a/1"
            "/a/*" _ [mkKVPair "/a/2" "two"] _ (reflexivity _) _
            (mkKVPair "/a/2" "two") _).
  - apply keys_consistent_Set, keys_consistent_Set, keys_consistent_New.
  - vm_compute. reflexivity.
  - by left.
Defined.

(** ** Patterns of literals *)

Lemma literal_pattern_String c p :
  literal_pattern (String c p) = true ->
  Ascii.eqb c "*" = false /\ Ascii.eqb c "?" = false /\
  Ascii.eqb c "[" = false /\ Ascii.eqb c "\" = false /\
  literal_pattern p = true.
Proof.
  simpl. rewrite !andb_true_iff, !negb_true_iff. tauto.
Qed.

Lemma scan_literal p : forall b,
  literal_pattern p = true -> scan b p = (p, "").
Proof.
  induction p as [|c p IH]; intros b Hlit; [done|].
  apply literal_pattern_String in Hlit as (Hs & _ & Hb & He & Hlit).
  rewrite scan_String, He, Hb, Hs. simpl andb. cbv iota.
  destruct (Ascii.eqb c "]"); by rewrite IH.
Qed.

Lemma scanChunk_literal c p :
  literal_pattern (String c p) = true ->
  scanChunk (String c p) = (false, String c p, "").
Proof.
  intros Hlit. unfold scanChunk.
  assert (skip_stars (String c p) = (false, String c p)) as ->.
  { apply literal_pattern_String in Hlit as (Hs & _). simpl. by rewrite Hs. }
  by rewrite scan_literal.
Qed.

Lemma ascii_eqb_sym (a b : ascii) : Ascii.eqb a b = Ascii.eqb b a.
Proof.
  destruct (Ascii.eqb_spec a b) as [->|Hne]; [by rewrite Ascii.eqb_refl|].
  symmetry. apply Ascii.eqb_neq. congruence.
Qed.

(** A chunk of literals matches the names that start with it, and reads
    exactly its own bytes. *)
Lemma matchChunk_loop_literal fuel : forall failed chunk s,
  literal_pattern chunk = true ->
  String.length chunk < fuel ->
  matchChunk_loop fuel failed chunk s =
    Some (if negb failed && HasPrefix s chunk
          then (drop_bytes (String.length chunk) s, true, None)
          else ("", false, None)).
Proof.
  induction fuel as [|fuel IH]; intros failed chunk s Hlit Hlen; [lia|].
  rewrite matchChunk_loop_S. destruct chunk as [|c chunk'].
  { destruct failed; [done|]. by destruct s. }
  apply literal_pattern_String in Hlit as (_ & Hq & Hb & He & Hlit).
  simpl in Hlen. cbv zeta. rewrite Hb, Hq, He.
  destruct s as [|c0 s'].
  - rewrite orb_true_r, IH by (done || lia). simpl. by rewrite andb_false_r.
  - simpl is_empty. rewrite orb_false_r. destruct failed.
    + by rewrite IH by (done || lia).
    + rewrite IH by (done || lia). rewrite negb_involutive. simpl.
      by rewrite (ascii_eqb_sym c0 c).
Qed.

Lemma matchChunk_literal chunk s :
  literal_pattern chunk = true ->
  matchChunk chunk s =
    if HasPrefix s chunk then (drop_bytes (String.length chunk) s, true, None)
    else ("", false, None).
Proof.
  intros Hlit. unfold matchChunk.
  rewrite matchChunk_loop_literal by (done || unfold matchChunk_fuel; lia).
  done.
Qed.

Lemma Match_loop_empty fuel name :
  Match_loop fuel "" name = Some (is_empty name, None).
Proof. by destruct fuel. Qed.

Lemma check_rest_empty fuel : check_rest fuel "" = Some None.
Proof. by destruct fuel. Qed.

(** A pattern of literals matches its own text and nothing else, and is
    never reported malformed. *)
Lemma Match_literal pattern name :
  literal_pattern pattern = true ->
  Match pattern name = (bool_decide (name = pattern), None).
Proof.
  intros Hlit. unfold Match. destruct pattern as [|c p].
  { simpl. f_equal. by destruct name. }
  simpl String.length. rewrite Match_loop_S, scanChunk_literal by done.
  simpl andb. cbv iota. rewrite matchChunk_literal by done.
  destruct (HasPrefix name (String c p)) eqn:Hp.
  - apply HasPrefix_inv in Hp.
    destruct (drop_bytes (String.length (String c p)) name) as [|c1 t] eqn:Ht.
    + simpl. rewrite Match_loop_empty. simpl. f_equal.
      rewrite append_empty_r in Hp. by rewrite bool_decide_eq_true_2.
    + simpl. rewrite check_rest_empty. simpl. f_equal.
      rewrite bool_decide_eq_false_2; [done|]. intros ->.
      apply (f_equal String.length) in Hp. rewrite append_length in Hp.
      simpl in Hp. lia.
  - simpl. rewrite check_rest_empty. simpl. f_equal.
    rewrite bool_decide_eq_false_2; [done|]. intros ->.
    by rewrite HasPrefix_refl in Hp.
Qed.

Lemma GetAll_on_no_bad kvs pattern :
  Forall (fun kv => ~ bad_on pattern kv) kvs ->
  GetAll_on kvs pattern =
    match filter (matches pattern) kvs with
    | [] => (None, Some ErrNoMatch)
    | kv :: ks => (Some (sort_KVPairs (kv :: ks)), None)
    end.
Proof.
  intros Hall. unfold GetAll_on. rewrite GetAll_scan_ok by done. simpl.
  by destruct (filter (matches pattern) kvs).
Qed.

Lemma sort_KVPairs_singleton kv : sort_KVPairs [kv] = [kv].
Proof. reflexivity. Qed.

Lemma GetAll_on_literal (s : Store) (k : string) (kvs : KVPairs) :
  literal_pattern k = true ->
  keys_consistent s ->
  kvs ≡ₚ range_order s ->
  GetAll_on kvs k =
    match m s !! k with
    | Some kv => (Some [kv], None)
    | None => (None, Some ErrNoMatch)
    end.
Proof.
  intros Hlit Hinv Hperm.
  assert (forall kv, matches k kv <-> Key kv = k) as Hmatch.
  { intros kv. unfold matches. rewrite Match_literal by done. split.
    - intros [= Hd]. by apply bool_decide_eq_true in Hd.
    - intros ->. by rewrite bool_decide_eq_true_2. }
  rewrite GetAll_on_no_bad.
  2:{ apply Forall_forall. intros kv _. unfold bad_on.
      rewrite Match_literal by done. simpl. auto. }
  assert (NoDup (filter (matches k) kvs)) as Hnd.
  { apply NoDup_filter. rewrite Hperm.
    apply (NoDup_fmap_1 Key). by apply range_order_NoDup_keys. }
  destruct (m s !! k) as [kv|] eqn:Hk.
  - assert (filter (matches k) kvs = [kv]) as ->; [|done].
    apply Permutation_singleton_r, NoDup_Permutation; [done|apply NoDup_singleton|].
    intros x. rewrite list_elem_of_filter, Hmatch, Hperm, list_elem_of_singleton.
    split.
    + intros [Hkey Hin]. apply (same_key_same_record s); [done|done| |].
      * apply elem_of_range_order. by exists k.
      * by rewrite Hkey, (Hinv _ _ Hk).
    + intros ->. split; [by apply (Hinv _ _ Hk)|].
      apply elem_of_range_order. by exists k.
  - destruct (filter (matches k) kvs) as [|kv l] eqn:Hf; [done|]. exfalso.
    assert (kv ∈ filter (matches k) kvs) as Hin by (rewrite Hf; by left).
    apply list_elem_of_filter in Hin as [Hkey%Hmatch Hin].
    rewrite Hperm in Hin. apply elem_of_range_order in Hin as [k' Hk'].
    rewrite (Hinv _ _ Hk') in Hkey. congruence.
Qed.

(** X11: with the text of a key as pattern, a text of literals, [GetAll]
    returns what [Get] does: the one record of that key, or [ErrNoMatch]
    where [Get] has [ErrNotExist] (on a store that keeps the invariant). *)
Theorem GetAll_literal_key (s : Store) (k : string) (kvs : KVPairs) :
  literal_pattern k = true ->
  keys_consistent s ->
  kvs ≡ₚ range_order s ->
  GetAll_on kvs k =
    match m s !! k with
    | Some kv => (Some [kv], None)
    | None => (None, Some ErrNoMatch)
    end.
Proof. apply GetAll_on_literal. Qed.

Lemma GetAll_literal_key_witness :
  GetAll (Set_ (Set_ New "/a/1" "one") "/a/2" "two") "/a/2"
  = (Some [mkKVPair "/a/2" "two"], None).
Proof.
  refine (GetAll_literal_key (Set_ (Set_ New "/a/1" "one") "/a/2" "two") "/a/2"
            _ _ _ (reflexivity _)).
  - reflexivity.
  - apply keys_consistent_Set, keys_consistent_Set, keys_consistent_New.
Defined.

(** ** A malformed pattern is malformed on every name *)




Lemma check_rest_fuel f1 : forall f2 pattern,
  String.length pattern <= f1 -> String.length pattern <= f2 ->
  check_rest f1 pattern = check_rest f2 pattern.
Proof.
  induction f1 as [|f1 IH]; intros f2 [|c p] H1 H2; simpl in H1, H2;
    try lia; try (by rewrite !check_rest_empty).
  destruct f2 as [|f2]; [lia|]. rewrite !check_rest_S.
  destruct (scanChunk (String c p)) as [[star chunk] rest] eqn:Hscan.
  apply scanChunk_spec in Hscan as (Hshort & _). specialize (Hshort ltac:(done)).
  simpl in Hshort.
  destruct (matchChunk chunk "") as [[t ok] [e|]]; [done|].
  apply IH; lia.
Qed.







(** ** [List] and [ListDir] *)

Lemma before_slash_no_slash s : Contains_slash (before_slash s) = false.
Proof.
  induction s as [|c s IH]; [done|]. simpl.
  destruct (Ascii.eqb c "/") eqn:Hc; [done|]. simpl. by rewrite Hc, IH.
Qed.

Lemma before_slash_whole seg : Contains_slash seg = false -> before_slash seg = seg.
Proof.
  induction seg as [|c seg IH]; [done|]. simpl.
  destruct (Ascii.eqb c "/"); [done|]. simpl. intros H. by rewrite IH.
Qed.

Lemma before_slash_cut seg rest :
  Contains_slash seg = false -> before_slash (seg ++ String "/" rest) = seg.
Proof.
  induction seg as [|c seg IH]; [done|]. rewrite append_String. simpl.
  destruct (Ascii.eqb c "/"); [done|]. simpl. intros H. by rewrite IH.
Qed.

Lemma Contains_slash_append a b :
  Contains_slash (a ++ b) = Contains_slash a || Contains_slash b.
Proof.
  induction a as [|c a IH]; [done|]. rewrite append_String. simpl.
  by rewrite IH, orb_assoc.
Qed.

Lemma drop_bytes_append p x : drop_bytes (String.length p) (p ++ x) = x.
Proof. induction p as [|c p IH]; [by destruct x|]. rewrite append_String. apply IH. Qed.

Lemma remainder_append path c x : remainder path (path ++ String c x) = x.
Proof. unfold remainder. by rewrite drop_bytes_append. Qed.

Lemma List_on_Returns (s : Store) path kvs vs :
  kvs ≡ₚ range_order s ->
  List_on kvs path = Returns vs ->
  ~ Exists (key_is_path path) (range_order s) /\ vs = List_spec s path.
Proof.
  intros Hperm. rewrite (List_on_cases s) by done.
  case_decide; [done|]. by intros [= <-].
Qed.

Lemma ListDir_on_Returns (s : Store) path kvs vs :
  kvs ≡ₚ range_order s ->
  ListDir_on kvs path = Returns vs ->
  ~ Exists (key_is_path path) (range_order s) /\ vs = ListDir_spec s path.
Proof.
  intros Hperm. rewrite (ListDir_on_cases s) by done.
  case_decide; [done|]. by intros [= <-].
Qed.

(** X14: no string that [List] or [ListDir] returns holds a separator:
    each is one segment of a key. *)
Theorem List_segments_hold_no_separator (s : Store) (path : string)
    (kvs : KVPairs) (vs : list string) :
  kvs ≡ₚ range_order s ->
  List_on kvs path = Returns vs \/ ListDir_on kvs path = Returns vs ->
  forall x, x ∈ vs -> Contains_slash x = false.
Proof.
  intros Hperm Hret x Hx.
  assert (exists l, x ∈ segments_of path l) as [l Hl].
  { destruct Hret as [[_ ->]%(List_on_Returns s)|[_ ->]%(ListDir_on_Returns s)];
      try done; eauto. }
  apply segments_of_spec in Hl as (kv & _ & <-). apply before_slash_no_slash.
Qed.

Lemma List_segments_hold_no_separator_witness : Contains_slash "db" = false.
Proof.
  refine (List_segments_hold_no_separator
    (Set_ New "/app/db/host" "h") "/app" _ ["db"] (reflexivity _) _ "db" _).
  - left. vm_compute. reflexivity.
  - by left.
Defined.

(** X15: what [List] and [ListDir] do, the panic included, does not
    depend on the order in which the map is visited. *)
Theorem List_any_order (s : Store) (path : string) (kvs : KVPairs) :
  kvs ≡ₚ range_order s ->
  List_on kvs path = List s path /\ ListDir_on kvs path = ListDir s path.
Proof.
  intros Hperm. unfold List, ListDir.
  by rewrite !(List_on_cases s), !(ListDir_on_cases s).
Qed.

Lemma List_any_order_witness :
  List_on (reverse (range_order (Set_ (Set_ New "/app/db" "1") "/app/web" "2")))
    "/app"
  = List (Set_ (Set_ New "/app/db" "1") "/app/web" "2") "/app".
Proof.
  refine (proj1 (List_any_order
    (Set_ (Set_ New "/app/db" "1") "/app/web" "2") "/app" _ _)).
  apply reverse_Permutation.
Defined.

(** X16: [List(path)] returns the empty slice exactly when no key has
    [path] as a prefix; [ListDir(path)] returns it exactly when no key
    equals [path] and no key under [path] has a further separator. *)
Theorem List_empty_iff (s : Store) (path : string) (kvs : KVPairs) :
  kvs ≡ₚ range_order s ->
  (List_on kvs path = Returns [] <->
     forall kv, kv ∈ range_order s -> HasPrefix (Key kv) path = false) /\
  (ListDir_on kvs path = Returns [] <->
     forall kv, kv ∈ range_order s ->
       Key kv <> path /\
       (HasPrefix (Key kv) path = true ->
        Contains_slash (remainder path (Key kv)) = false)).
Proof.
  intros Hperm. split; split.
  - intros [Hno Hnil]%(List_on_Returns s) kv Hin; [|done].
    destruct (HasPrefix (Key kv) path) eqn:Hp; [|done]. exfalso.
    assert (first_segment path (Key kv) ∈ List_spec s path) as Hseg.
    { apply segments_of_spec. exists kv. split; [|done].
      by apply list_elem_of_filter. }
    rewrite <- Hnil in Hseg. by apply elem_of_nil in Hseg.
  - intros Hno. by apply (List_no_prefix s).
  - intros [Hno Hnil]%(ListDir_on_Returns s) kv Hin; [|done]. split.
    + intros Heq. apply Hno, Exists_exists. by exists kv.
    + intros Hp. destruct (Contains_slash (remainder path (Key kv))) eqn:Hc;
        [|done]. exfalso.
      assert (first_segment path (Key kv) ∈ ListDir_spec s path) as Hseg.
      { apply segments_of_spec. exists kv. split; [|done].
        apply list_elem_of_filter. split; [done|]. by apply list_elem_of_filter. }
      rewrite <- Hnil in Hseg. by apply elem_of_nil in Hseg.
  - intros Hall. rewrite (ListDir_on_cases s) by done.
    rewrite decide_False.
    2:{ intros (kv & Hin & Hkv)%Exists_exists. by destruct (Hall kv Hin). }
    f_equal. unfold ListDir_spec.
    destruct (filter (has_child path) (filter (under path) (range_order s)))
      as [|kv l] eqn:Hf; [done|]. exfalso.
    assert (kv ∈ filter (has_child path) (filter (under path) (range_order s)))
      as Hin by (rewrite Hf; by left).
    apply list_elem_of_filter in Hin as [Hc [Hu Hin]%list_elem_of_filter].
    destruct (Hall kv Hin) as [_ Hno]. unfold has_child in Hc.
    rewrite (Hno Hu) in Hc. done.
Qed.

Lemma List_empty_iff_witness :
  List_on (range_order (Set_ New "/app/db" "1")) "/web" = Returns [] <->
  forall kv, kv ∈ range_order (Set_ New "/app/db" "1") ->
    HasPrefix (Key kv) "/web" = false.
Proof.
  refine (proj1 (List_empty_iff (Set_ New "/app/db" "1") "/web" _ (reflexivity _))).
Defined.

(** X17: after [Set] of a key made of [path], a separator and a segment,
    [List(path)] holds the segment whenever it returns; after [Set] of a key
    with a further separator and a child below the segment, [ListDir(path)]
    holds the segment too. *)
Theorem List_after_Set (s : Store) (path seg child v : string)
    (kvs : KVPairs) (vs : list string) :
  Contains_slash seg = false ->
  (kvs ≡ₚ range_order (Set_ s (path ++ "/" ++ seg) v) ->
   List_on kvs path = Returns vs -> seg ∈ vs) /\
  (kvs ≡ₚ range_order (Set_ s (path ++ "/" ++ seg ++ "/" ++ child) v) ->
   ListDir_on kvs path = Returns vs \/ List_on kvs path = Returns vs ->
   seg ∈ vs).
Proof.
  intros Hseg. split.
  - intros Hperm [_ ->]%(List_on_Returns (Set_ s (path ++ "/" ++ seg) v)); [|done].
    apply segments_of_spec. exists (mkKVPair (path ++ "/" ++ seg) v).
    split.
    + apply list_elem_of_filter. split; [apply HasPrefix_append|].
      apply elem_of_range_order. eexists. apply lookup_insert_eq.
    + unfold first_segment. simpl Key.
      change (path ++ "/" ++ seg) with (path ++ String "/" seg).
      rewrite remainder_append. by apply before_slash_whole.
  - set (key := path ++ "/" ++ seg ++ "/" ++ child).
    assert (remainder path key = seg ++ String "/" child) as Hrem.
    { unfold key. change (path ++ "/" ++ seg ++ "/" ++ child)
        with (path ++ String "/" (seg ++ String "/" child)).
      apply remainder_append. }
    assert (mkKVPair key v ∈ range_order (Set_ s key v)) as Hin.
    { apply elem_of_range_order. eexists. apply lookup_insert_eq. }
    assert (under path (mkKVPair key v)) as Hu by apply HasPrefix_append.
    assert (first_segment path key = seg) as Hfirst.
    { unfold first_segment. rewrite Hrem. by apply before_slash_cut. }
    intros Hperm [[_ ->]%(ListDir_on_Returns (Set_ s key v))
                 |[_ ->]%(List_on_Returns (Set_ s key v))]; try done;
      apply segments_of_spec; exists (mkKVPair key v); (split; [|done]).
    + apply list_elem_of_filter. split; [|by apply list_elem_of_filter].
      unfold has_child. simpl Key. rewrite Hrem, Contains_slash_append. simpl.
      by rewrite orb_true_r.
    + by apply list_elem_of_filter.
Qed.

Lemma List_after_Set_witness : "db" ∈ ["db"].
Proof.
  refine (proj1 (List_after_Set New "/app" "db" "host" "1" _ ["db"] _)
            (reflexivity _) _).
  - reflexivity.
  - vm_compute. reflexivity.
Defined.

(** X18: on every store, [List(k)] and [ListDir(k)] panic right after
    [Set(k, v)]; after [Del(k)], on a store that keeps the invariant, they
    return. *)
Theorem List_of_a_key (s : Store) (k v : string) (kvs : KVPairs) :
  (kvs ≡ₚ range_order (Set_ s k v) ->
   List_on kvs k = Panics /\ ListDir_on kvs k = Panics) /\
  (keys_consistent s -> kvs ≡ₚ range_order (Del s k) ->
   List_on kvs k = Returns (List_spec (Del s k) k) /\
   ListDir_on kvs k = Returns (ListDir_spec (Del s k) k)).
Proof.
  split.
  - intros Hperm.
    rewrite (List_on_cases (Set_ s k v)), (ListDir_on_cases (Set_ s k v)) by done.
    rewrite !decide_True; [done|..];
      apply Exists_exists; exists (mkKVPair k v);
      (split; [|done]); apply elem_of_range_order; eexists;
      apply lookup_insert_eq.
  - intros Hinv Hperm.
    rewrite (List_on_cases (Del s k)), (ListDir_on_cases (Del s k)) by done.
    rewrite !decide_False; [done|..];
      intros (kv & [k' Hk']%elem_of_range_order & Hkv)%Exists_exists;
      simpl in Hk'; apply lookup_delete_Some in Hk' as [Hne Hk'];
      unfold key_is_path in Hkv; rewrite (Hinv _ _ Hk') in Hkv; done.
Qed.

Lemma List_of_a_key_witness :
  List_on (range_order (Set_ (Set_ New "/app/db" "1") "/app" "2")) "/app" = Panics.
Proof.
  refine (proj1 (proj1 (List_of_a_key (Set_ New "/app/db" "1") "/app" "2" _)
                   (reflexivity _))).
Defined.

(** ** [GetAllValues] *)

(** X19: the slice that [GetAllValues] returns is never [nil], and it is
    empty exactly when the call fails: a call that succeeds returns at least
    one value. *)
Theorem GetAllValues_empty_iff_failure (kvs : KVPairs) (pattern : string) :
  exists vs, fst (GetAllValues_on kvs pattern) = Some vs /\
    (vs = [] <-> snd (GetAllValues_on kvs pattern) <> None).
Proof.
  unfold GetAllValues_on.
  destruct (GetAll_on_cases kvs pattern)
    as [(_ & e & kv & _ & _ & H)|[(_ & _ & H)|(_ & Hne & H)]]; rewrite H; simpl.
  - by exists [].
  - by exists [].
  - eexists. split; [done|]. split; [|done]. intros Hnil. exfalso.
    apply fmap_nil_inv in Hnil. apply Hne, Permutation_nil_r.
    rewrite <- Hnil. symmetry. apply sort_KVPairs_perm.
Qed.

(** X20: with the text of a key as pattern, a text of literals,
    [GetAllValues] returns the one value that [GetValue] returns, or the
    empty slice with [ErrNoMatch] where [GetValue] has [ErrNotExist] (on a
    store that keeps the invariant). *)
Theorem GetAllValues_literal_key (s : Store) (k : string) (kvs : KVPairs) :
  literal_pattern k = true ->
  keys_consistent s ->
  kvs ≡ₚ range_order s ->
  GetAllValues_on kvs k =
    match GetValue s k with
    | (v, None) => (Some [v], None)
    | (_, Some _) => (Some [], Some ErrNoMatch)
    end.
Proof.
  intros Hlit Hinv Hperm. unfold GetAllValues_on, GetValue, Get.
  rewrite (GetAll_on_literal s) by done. by destruct (m s !! k).
Qed.

Lemma GetAllValues_literal_key_witness :
  GetAllValues (Set_ (Set_ New "/a/1" "one") "/a/2" "two") "/a/2"
  = (Some ["two"], None).
Proof.
  refine (GetAllValues_literal_key (Set_ (Set_ New "/a/1" "one") "/a/2" "two")
            "/a/2" _ _ _ (reflexivity _)).
  - reflexivity.
  - apply keys_consistent_Set, keys_consistent_Set, keys_consistent_New.
Defined.

(** ** Wildcards and the levels of a key *)

(** X22: for a pattern made of literals, [*] and [?] only, every record
    that [GetAll] returns has a key with as many separators as the pattern:
    no wildcard reaches across a level of the key space. *)
Theorem GetAll_keeps_level (pattern : string) (kvs ks : KVPairs) :
  plain_pattern pattern = true ->
  GetAll_on kvs pattern = (Some ks, None) ->
  forall kv, kv ∈ ks -> count_slash (Key kv) = count_slash pattern.
Proof.
  intros Hplain (_ & -> & _)%GetAll_on_ok_inv kv Hin.
  rewrite sort_KVPairs_perm in Hin.
  apply list_elem_of_filter in Hin as [Hm _].
  by apply Match_plain_separators.
Qed.

Lemma GetAll_keeps_level_witness :
  count_slash (Key (mkKVPair "/a/1" "one")) = count_slash "/*/?".
Proof.
  refine (GetAll_keeps_level "/*/?"
            (range_order (Set_ (Set_ New "/a/1" "one") "/a/b/2" "two"))
            [mkKVPair "/a/1" "one"] (reflexivity _) _ (mkKVPair "/a/1" "one") _).
  - vm_compute. reflexivity.
  - by left.
Defined.

(** ** The lock under the receiver as declared *)

Module ConcProgress.
Import Conc.








End ConcProgress.
